(** * hash_match: matching sequences of 16-bit hash codes

    A shallow embedding of [hash_match.py]: the bits-set table, the
    integer/bit-vector conversions, the pairwise bit distance, the dynamic
    time warping core and its endpoint search, the Keogh envelopes and
    bound, and the matcher built from them.

    Conventions of the embedding.
    - A [uint16] array is a [list Z]; every store into one reduces the stored
      value modulo [2^16].  Integer expressions are evaluated at machine-word
      width (so [D[i, j + 1] + pen] does not wrap before it is compared or
      stored).
    - A two-dimensional array is the list of its rows; indices of the
      compiled loops are [nat], indices computed by the interpreted code are
      [Z] and follow Python's rule for negative indices.
    - A binary64 value is a rational, [+inf] or [nan]: the rounding of
      finite results is not modelled, the three outcomes of a division are.
    - An exception is the result [None]. *)

From Stdlib Require Import ZArith QArith Qround Lia List Permutation.
From stdpp Require Import base list.
From Equations Require Import Equations.
Import ListNotations.
Open Scope Z_scope.

(** ** Numbers *)

Definition N_BITS : nat := 16.

(** What a store into a [uint16] array keeps of an integer. *)
Definition u16 (v : Z) : Z := v mod 65536.

Definition in_u16 (v : Z) : Prop := 0 <= v < 65536.

(** Binary64 results. *)
Inductive float : Type :=
| Fin (q : Q)
| PInf
| NaN.

(** [n / float(d)] for two unsigned integers: numpy scalars do not raise on a
    zero divisor, they give [inf] or [nan]. *)
Definition true_div (n d : Z) : float :=
  if d =? 0 then (if n =? 0 then NaN else PInf)
  else Fin (n # Z.to_pos d).

(** [a < b] and [a <= b] on binary64: every comparison with [nan] is false. *)
Definition float_lt (a b : float) : bool :=
  match a, b with
  | Fin p, Fin q => negb (Qle_bool q p)
  | Fin _, PInf => true
  | _, _ => false
  end.

Definition float_le (a b : float) : bool :=
  match a, b with
  | Fin p, Fin q => Qle_bool p q
  | Fin _, PInf => true
  | PInf, PInf => true
  | _, _ => false
  end.

(** [int(q)]: truncation towards zero. *)
Definition int_of_float (q : Q) : Z :=
  if Qle_bool 0 q then Qfloor q else Qceiling q.

(** ** Python sequences *)

(** [l[i]] with Python's negative indices; [None] is [IndexError]. *)
Definition py_index {A} (l : list A) (i : Z) : option A :=
  let n := Z.of_nat (length l) in
  if (0 <=? i) && (i <? n) then l !! Z.to_nat i
  else if (- n <=? i) && (i <? 0) then l !! Z.to_nat (n + i)
  else None.

(** [l[g:]]. *)
Definition py_slice_from {A} (g : Z) (l : list A) : list A :=
  let n := Z.of_nat (length l) in
  if g <? 0 then drop (Z.to_nat (Z.max 0 (n + g))) l
  else drop (Z.to_nat g) l.

(** [np.argmin]: the position of the first occurrence of the minimum;
    [None] is the [ValueError] on an empty array. *)
Fixpoint argmin_from (best : Z) (besti : nat) (i : nat) (l : list Z) : nat :=
  match l with
  | [] => besti
  | v :: l' =>
      if v <? best then argmin_from v i (S i) l'
      else argmin_from best besti (S i) l'
  end.

Definition argmin (l : list Z) : option nat :=
  match l with
  | [] => None
  | v :: l' => Some (argmin_from v 0%nat 1%nat l')
  end.

Definition sum_list (l : list Z) : Z := fold_right Z.add 0 l.

(** ** The bits-set table *)

(** [bits_set = np.zeros(2**N_BITS)], then
    [bits_set[i] = (i & 1) + bits_set[i/2]] for every [i] in order. *)
Definition build_bits_set (size : nat) : list Z :=
  fold_left
    (fun tbl i => <[i := u16 (Z.land (Z.of_nat i) 1 + tbl !!! (i / 2)%nat)]> tbl)
    (seq 0 size) (replicate size 0).

Definition bits_set : list Z := build_bits_set (2 ^ N_BITS).

(** ** Integers and bit vectors *)

(** A numpy array of one or of two dimensions. *)
Inductive ndarray : Type :=
| Array1 (v : list Z)
| Array2 (rows : list (list Z)).

(** [np.array] on a list of rows of one length: a matrix, except that the
    empty list has no rows to take a width from and gives the empty array of
    one dimension. *)
Definition np_array (rows : list (list Z)) : ndarray :=
  match rows with
  | [] => Array1 []
  | _ :: _ => Array2 rows
  end.

Definition ints_to_vectors (int_sequence : list Z) : ndarray :=
  np_array
    (map (fun n => map (fun i => Z.land (Z.shiftr n (Z.of_nat i)) 1) (seq 0 N_BITS))
         int_sequence).

(** One row of [vectors*2**(np.arange(vectors.shape[1])*vectors)], summed. *)
Definition row_to_int (row : list Z) : Z :=
  sum_list (imap (fun i v => v * 2 ^ (Z.of_nat i * v)) row).

(** [vectors.shape[1]] raises [IndexError] on an array of one dimension. *)
Definition vectors_to_ints (vectors : ndarray) : option (list Z) :=
  match vectors with
  | Array1 _ => None
  | Array2 rows => Some (map row_to_int rows)
  end.

(** ** Matrices *)

Abbreviation matrix := (list (list Z)).

Definition shape0 (D : matrix) : nat := length D.
Definition shape1 (D : matrix) : nat := length (D !!! 0%nat).

(** [D[i, j]] and [D[i, j] = v] inside the compiled loops, where the indices
    are in range by construction. *)
Definition get2 (D : matrix) (i j : nat) : Z := (D !!! i) !!! j.

Definition set2 (D : matrix) (i j : nat) (v : Z) : matrix :=
  <[i := <[j := u16 v]> (D !!! i)]> D.

(** [D[i, j]] in interpreted code. *)
Definition getitem2 (D : matrix) (i j : Z) : option Z :=
  row ← py_index D i; py_index row j.

Definition np_zeros (rows cols : nat) : matrix := replicate rows (replicate cols 0).

(** [np.empty]: the contents are unspecified; [int_dist] writes every cell
    before any is read. *)
Definition np_empty (rows cols : nat) : matrix := replicate rows (replicate cols 0).

(** ** Pairwise bit distance *)

Definition int_dist (x y : list Z) (output : matrix) (bits_set : list Z) : matrix :=
  let nx := length x in
  let ny := length y in
  fold_left
    (fun output m =>
       fold_left
         (fun output n =>
            set2 output m n (bits_set !!! Z.to_nat (Z.lxor (x !!! m) (y !!! n))))
         (seq 0 ny) output)
    (seq 0 nx) output.

(** ** Dynamic time warping *)

(** The body of the two loops of [dtw_core], at [(i, j)]. *)
Definition dtw_cell (pen : Z) (i j : nat) (st : matrix * matrix) : matrix * matrix :=
  let '(D, path_length) := st in
  if (get2 D i j <=? get2 D i (j + 1) + pen)
     && (get2 D i j <=? get2 D (i + 1) j + pen) then
    let path_length :=
      set2 path_length (i + 1) (j + 1)
           (get2 path_length (i + 1) (j + 1) + (get2 path_length i j + 1)) in
    let D := set2 D (i + 1) (j + 1) (get2 D (i + 1) (j + 1) + get2 D i j) in
    (D, path_length)
  else if (get2 D i (j + 1) <=? get2 D (i + 1) j)
          && (get2 D i (j + 1) + pen <=? get2 D i j) then
    let path_length :=
      set2 path_length (i + 1) (j + 1)
           (get2 path_length (i + 1) (j + 1) + (get2 path_length i (j + 1) + 1)) in
    let D := set2 D (i + 1) (j + 1) (get2 D (i + 1) (j + 1) + (get2 D i (j + 1) + pen)) in
    (D, path_length)
  else if (get2 D (i + 1) j <=? get2 D i (j + 1))
          && (get2 D (i + 1) j + pen <=? get2 D i j) then
    let path_length :=
      set2 path_length (i + 1) (j + 1)
           (get2 path_length (i + 1) (j + 1) + (get2 path_length (i + 1) j + 1)) in
    let D := set2 D (i + 1) (j + 1) (get2 D (i + 1) (j + 1) + (get2 D (i + 1) j + pen)) in
    (D, path_length)
  else (D, path_length).

Definition dtw_core (D : matrix) (pen : Z) (path_length : matrix) : matrix * matrix :=
  fold_left
    (fun st i =>
       fold_left (fun st j => dtw_cell pen i j st) (seq 0 (shape1 D - 1)) st)
    (seq 0 (shape0 D - 1)) (D, path_length).

(** The traceback of [dtw]: the cell of the bottom or right edge at which
    the lowest-cost path ends, in the relaxed matrix [D]. *)
Definition dtw_endpoint (D : matrix) (gully : Q) : option (Z * Z) :=
  let rows := Z.of_nat (shape0 D) in
  let cols := Z.of_nat (shape1 D) in
  let gully := int_of_float (gully * inject_Z (Z.min rows cols)) in
  last_column ← mapM (fun row => py_index row (-1)) D;
  i ← argmin (py_slice_from gully last_column);
  let i := Z.of_nat i + gully in
  last_row ← py_index D (-1);
  j ← argmin (py_slice_from gully last_row);
  let j := Z.of_nat j + gully in
  row_cost ← getitem2 D (-1) j;
  column_cost ← getitem2 D i (-1);
  Some (if column_cost <? row_cost then (i, cols - 1) else (rows - 1, j)).

Definition dtw (distance_matrix : matrix) (gully : Q) (penalty : Z) : option float :=
  let path_length := np_zeros (shape0 distance_matrix) (shape1 distance_matrix) in
  let '(D, path_length) := dtw_core distance_matrix penalty path_length in
  '(i, j) ← dtw_endpoint D gully;
  cost ← getitem2 D i j;
  steps ← getitem2 path_length i j;
  Some (true_div cost steps).

(** ** Keogh envelopes and bound *)

(** [scipy.ndimage]'s one-dimensional rank filters with their defaults
    ([mode='reflect'], [origin=0]): the window of [size] cells of output cell
    [i] starts at [i - size/2], and a position outside the input is reflected
    about the edge, the edge cell repeated ([d c b a | a b c d | d c b a]).
    A [size] below one is refused with a [RuntimeError]. *)
Definition reflect (n : nat) (k : Z) : nat :=
  let m := k mod (2 * Z.of_nat n) in
  Z.to_nat (if m <? Z.of_nat n then m else 2 * Z.of_nat n - 1 - m).

Definition window (x : list Z) (size : nat) (i : nat) : list Z :=
  map (fun k => x !!! reflect (length x) (Z.of_nat i - Z.of_nat (size / 2) + Z.of_nat k))
      (seq 0 size).

Definition rank_filter1d (pick : Z -> Z -> Z) (x : list Z) (size : Z) : option (list Z) :=
  if size <? 1 then None
  else Some (map (fun i => match window x (Z.to_nat size) i with
                           | [] => 0
                           | v :: w => fold_left pick w v
                           end)
                 (seq 0 (length x))).

Definition maximum_filter1d := rank_filter1d Z.max.
Definition minimum_filter1d := rank_filter1d Z.min.

Definition keogh_envelopes (x : list Z) (r : Z) : option (list Z * list Z) :=
  u ← maximum_filter1d x r;
  l ← minimum_filter1d x r;
  Some (map u16 u, map u16 l).

(** [np.sum(bits_set[(y ^ e)[mask]])]. *)
Definition masked_bits (mask : Z -> Z -> bool) (y e : list Z) (bits_set : list Z) : Z :=
  sum_list
    (map (fun p : Z * Z => bits_set !!! Z.to_nat (Z.lxor p.1 p.2))
         (List.filter (fun p : Z * Z => mask p.1 p.2) (zip y e))).

Definition lb_keogh (u l y : list Z) (bits_set : list Z) : float :=
  let '(u, l, y) :=
    if (length u <? length y)%nat then (u, l, take (length u) y)
    else (take (length y) u, take (length y) l, y) in
  let bound :=
    masked_bits (fun yi ui => ui <? yi) y u bits_set
    + masked_bits (fun yi li => yi <? li) y l bits_set in
  true_div bound (Z.of_nat (length u)).

(** ** The matcher *)

(** [np.searchsorted]: numpy's binary search.  With [side='left'] the search
    moves right past the cells below the key, with [side='right'] past the
    cells not above it. *)
Inductive side : Type := Left | Right.

Definition goes_right (s : side) (key : Q) (v : Z) : bool :=
  match s with
  | Left => negb (Qle_bool key (inject_Z v))
  | Right => Qle_bool (inject_Z v) key
  end.

Equations? binsearch (s : side) (key : Q) (a : list Z) (min_idx max_idx : nat) : nat
  by wf (max_idx - min_idx)%nat lt :=
  binsearch s key a min_idx max_idx with decide (min_idx < max_idx)%nat => {
    | left _ with goes_right s key (a !!! (min_idx + (max_idx - min_idx) / 2)%nat) => {
        | true => binsearch s key a (min_idx + (max_idx - min_idx) / 2 + 1)%nat max_idx
        | false => binsearch s key a min_idx (min_idx + (max_idx - min_idx) / 2)%nat }
    | right _ => min_idx }.
Proof.
  all: change (Nat.divmod (max_idx - min_idx) 1 0 1).1
         with ((max_idx - min_idx) / 2)%nat;
       assert ((max_idx - min_idx) / 2 < max_idx - min_idx)%nat
         by (apply Nat.div_lt; lia); lia.
Qed.

Definition searchsorted (a : list Z) (v : Q) (s : side) : nat :=
  binsearch s v a 0%nat (length a).

#[global] Instance float_inhabited : Inhabited float := populate NaN.

(** [np.argsort]: sorting puts [nan] last.  The order numpy gives to equal
    scores is not specified; here equal scores keep their order. *)
Definition sorts_before (a b : float) : bool :=
  match a, b with
  | NaN, NaN => true
  | NaN, _ => false
  | _, NaN => true
  | _, _ => float_le a b
  end.

Fixpoint insert_index (scores : list float) (n : nat) (sorted : list nat) : list nat :=
  match sorted with
  | [] => [n]
  | m :: rest =>
      if sorts_before (scores !!! m) (scores !!! n) then m :: insert_index scores n rest
      else n :: m :: rest
  end.

Definition argsort (scores : list float) : list nat :=
  fold_left (fun sorted n => insert_index scores n sorted) (seq 0 (length scores)) [].

(** The state of the loop over the candidates: the best score so far, the
    matches and their scores. *)
Abbreviation match_state := (float * list nat * list float)%type.

Definition match_candidate (query : list Z) (sequences : list (list Z))
    (u l : list Z) (gully : Q) (penalty : Z)
    (st : option match_state) (n : nat) : option match_state :=
  '(best_so_far, matches, scores) ← st;
  candidate ← sequences !! n;
  let keogh_bound := lb_keogh u l candidate bits_set in
  if float_lt keogh_bound best_so_far then
    let distance_matrix :=
      int_dist query candidate (np_empty (length query) (length candidate)) bits_set in
    score ← dtw distance_matrix gully penalty;
    Some (if float_lt score best_so_far then score else best_so_far,
          matches ++ [n], scores ++ [score])
  else Some (best_so_far, matches, scores).

Definition lower_length (length_tolerance query_length : Q) : Q :=
  ((1 - length_tolerance) * query_length)%Q.

Definition upper_length (length_tolerance query_length : Q) : Q :=
  ((1 + length_tolerance) * query_length)%Q.

Definition match_one_sequence (query : list Z) (query_length : Q)
    (sequences : list (list Z)) (lengths : list Z) (length_tolerance : Q)
    (radius : Z) (gully : Q) (penalty : Z) : option (list nat * list float) :=
  let start := searchsorted lengths (lower_length length_tolerance query_length) Left in
  let end_ := searchsorted lengths (upper_length length_tolerance query_length) Right in
  '(u, l) ← keogh_envelopes query radius;
  '(_, matches, scores) ←
    fold_left (match_candidate query sequences u l gully penalty)
              (seq start (end_ - start)) (Some (PInf, [], []));
  let sorted_idx := argsort scores in
  Some (map (fun n => matches !!! n) sorted_idx,
        map (fun n => scores !!! n) sorted_idx).

(** ** Reference notions used in the statements *)

(** The number of ones in the binary writing of a number. *)
Fixpoint popcount_pos (p : positive) : Z :=
  match p with
  | xH => 1
  | xO p => popcount_pos p
  | xI p => 1 + popcount_pos p
  end.

Definition popcount (v : Z) : Z :=
  match v with
  | Zpos p => popcount_pos p
  | _ => 0
  end.

(** The table of the population counts of [0 .. 2^bits - 1], built by
    doubling; it is equal to [bits_set] and cheap to evaluate. *)
Fixpoint popcount_table (bits : nat) : list Z :=
  match bits with
  | O => [0]
  | S b => flat_map (fun v => [v; v + 1]) (popcount_table b)
  end.

(** A matrix of [rows] rows, each of [cols] cells. *)
Definition has_shape (rows cols : nat) (D : matrix) : Prop :=
  length D = rows /\ Forall (fun row => length row = cols) D.

(** The cells [(i, j)] visited by [dtw_core], row by row. *)
Definition row_major (rows cols : nat) : list (nat * nat) :=
  flat_map (fun i => map (fun j => (i, j)) (seq 0 (cols - 1))) (seq 0 (rows - 1)).



(** [k] is the position of the first minimum of [l] among the positions from
    [offset] on. *)
Definition first_min_from (offset : nat) (l : list Z) (k : nat) : Prop :=
  (offset <= k < length l)%nat
  /\ (forall m, (offset <= m < length l)%nat -> l !!! k <= l !!! m)
  /\ (forall m, (offset <= m < k)%nat -> l !!! k < l !!! m).

(** The last column of a matrix. *)
Definition last_column (D : matrix) : list Z :=
  map (fun row => row !!! (length row - 1)%nat) D.

Definition last_row (D : matrix) : list Z := D !!! (length D - 1)%nat.

(** A list in ascending order. *)
Definition ascending (a : list Z) : Prop :=
  forall i j x y, a !! i = Some x -> a !! j = Some y -> (i <= j)%nat -> x <= y.

(** The endpoint of the traceback in a relaxed matrix [D]: [i] is the first
    minimum of the last column and [j] the first minimum of the last row,
    both from [offset] on; when the cost in the last row at [j] exceeds the
    cost in the last column at [i] the endpoint is in the last column, at
    row [i], otherwise in the last row, at column [j]. *)
Definition chosen_endpoint (D : matrix) (offset : nat) (e : nat * nat) : Prop :=
  exists i j,
    first_min_from offset (last_column D) i
    /\ first_min_from offset (last_row D) j
    /\ ((last_column D !!! i < last_row D !!! j /\ e = (i, shape1 D - 1)%nat)
        \/ (last_row D !!! j <= last_column D !!! i /\ e = (shape0 D - 1, j)%nat)).


(** A check of [ascending] that computes. *)
Fixpoint is_ascending (a : list Z) : bool :=
  match a with
  | [] => true
  | x :: rest =>
      match rest with
      | [] => true
      | y :: _ => (x <=? y) && is_ascending rest
      end
  end.

(** The cost that [dtw] divides by the path length: the cell of the relaxed
    matrix at the endpoint of the traceback. *)
Definition dtw_cost (distance_matrix : matrix) (gully : Q) (penalty : Z) : option Z :=
  let path_length := np_zeros (shape0 distance_matrix) (shape1 distance_matrix) in
  let '(D, _) := dtw_core distance_matrix penalty path_length in
  '(i, j) ← dtw_endpoint D gully;
  getitem2 D i j.

(** The cumulative costs in unbounded integers: each cell, in row-major
    order, receives the least of the cost of its diagonal neighbour and of
    the penalised costs of the two others. *)
Definition set2_wide (D : matrix) (i j : nat) (v : Z) : matrix :=
  <[i := <[j := v]> (D !!! i)]> D.

Definition relax_cell_wide (pen : Z) (D : matrix) (c : nat * nat) : matrix :=
  set2_wide D (c.1 + 1) (c.2 + 1)
    (get2 D (c.1 + 1) (c.2 + 1)
     + Z.min (get2 D c.1 c.2)
             (Z.min (get2 D c.1 (c.2 + 1)) (get2 D (c.1 + 1) c.2) + pen)).

Definition relax_wide (D : matrix) (pen : Z) : matrix :=
  fold_left (relax_cell_wide pen) (row_major (shape0 D) (shape1 D)) D.

(** Every cell is a [uint16] value. *)
Definition fits_u16 (D : matrix) : bool :=
  forallb (forallb (fun v => (0 <=? v) && (v <? 65536))) D.

(** Cell by cell, [A] is at most [B]; every cell of [D] is in [[lo, hi)]. *)
Definition cells_le (A B : matrix) : Prop := forall i j, get2 A i j <= get2 B i j.

Definition cells_in (lo hi : Z) (D : matrix) : Prop :=
  forall i j, lo <= get2 D i j < hi.

(** The matrix of the bit distances of two sequences: the cell [(m, n)] is
    the number of bits in which [x[m]] and [y[n]] differ. *)
Definition bit_distances (x y : list Z) : matrix :=
  map (fun a => map (fun b => popcount (Z.lxor a b)) y) x.

(** The neighbour of cell [(i + 1, j + 1)] from which the relaxation reaches
    it: the diagonal one when both diagonal guards hold, otherwise the cheaper
    of the other two, the one of the row above on a tie. *)
Definition predecessor (pen : Z) (D : matrix) (i j : nat) : nat * nat :=
  if (get2 D i j <=? get2 D i (j + 1) + pen)
     && (get2 D i j <=? get2 D (i + 1) j + pen) then (i, j)
  else if get2 D i (j + 1) <=? get2 D (i + 1) j then (i, (j + 1)%nat)
  else ((i + 1)%nat, j).

(** The Keogh bound as a sum over the positions both sequences have. *)
Definition keogh_term (u l y : list Z) (i : nat) : Z :=
  (if u !!! i <? y !!! i then bits_set !!! Z.to_nat (Z.lxor (y !!! i) (u !!! i)) else 0)
  + (if y !!! i <? l !!! i then bits_set !!! Z.to_nat (Z.lxor (y !!! i) (l !!! i)) else 0).

(** Scores in the order [np.argsort] leaves them: ascending, [nan] last. *)
Definition scores_ascending (scores : list float) : Prop :=
  forall i j a b, scores !! i = Some a -> scores !! j = Some b -> (i <= j)%nat ->
                  sorts_before a b = true.

(** * Properties *)

(** ** The bits-set table *)

Lemma popcount_pos_bounds p : 0 < popcount_pos p <= Zpos p.
Proof. induction p; cbn [popcount_pos]; lia. Qed.

Lemma popcount_bounds v : 0 <= v -> 0 <= popcount v <= v.
Proof.
  destruct v as [|p|p]; cbn [popcount]; try lia.
  pose proof (popcount_pos_bounds p). lia.
Qed.

Lemma popcount_step v : 0 <= v -> popcount v = Z.land v 1 + popcount (v / 2).
Proof.
  intros Hv. rewrite <- Z.div2_div.
  destruct v as [|p|p]; [reflexivity| |lia].
  destruct p; reflexivity.
Qed.

Lemma land_1_mod v : Z.land v 1 = v mod 2.
Proof. change 1 with (Z.ones 1). rewrite Z.land_ones by lia. reflexivity. Qed.

Section table.
Let fill (tbl : list Z) (i : nat) : list Z :=
  <[i := u16 (Z.land (Z.of_nat i) 1 + tbl !!! (i / 2)%nat)]> tbl.

Lemma build_prefix (size k : nat) :
  (k <= size)%nat -> Z.of_nat size <= 65536 ->
  let t := fold_left fill (seq 0 k) (replicate size 0) in
  length t = size
  /\ (forall i, (i < k)%nat -> t !! i = Some (popcount (Z.of_nat i)))
  /\ (forall i, (k <= i < size)%nat -> t !! i = Some 0).
Proof.
  intros Hk Hsize. induction k as [|k IH]; cbn zeta.
  - cbn [seq fold_left]. rewrite length_replicate. split; [reflexivity|].
    split; [lia|]. intros i Hi. apply lookup_replicate_2. lia.
  - rewrite seq_S, fold_left_app. cbn [fold_left Nat.add].
    destruct IH as (Hlen & Hlow & Hhigh); [lia|].
    set (t := fold_left fill (seq 0 k) (replicate size 0)) in *.
    unfold fill. rewrite length_insert. split; [exact Hlen|].
    assert (Hhalf : t !!! (k / 2)%nat = popcount (Z.of_nat (k / 2))).
    { apply list_lookup_total_correct.
      destruct (decide (k = 0%nat)) as [->|Hne].
      - apply Hhigh. cbn. lia.
      - apply Hlow. apply Nat.div_lt; lia. }
    assert (Hval : u16 (Z.land (Z.of_nat k) 1 + t !!! (k / 2)%nat)
                   = popcount (Z.of_nat k)).
    { rewrite Hhalf, Nat2Z.inj_div. change (Z.of_nat 2) with 2.
      rewrite <- popcount_step by lia.
      pose proof (popcount_bounds (Z.of_nat k)). unfold u16.
      apply Z.mod_small. lia. }
    rewrite Hval. split.
    + intros i Hi. destruct (decide (i = k)) as [->|Hne].
      * apply list_lookup_insert_eq. lia.
      * rewrite list_lookup_insert_ne by congruence. apply Hlow. lia.
    + intros i Hi. rewrite list_lookup_insert_ne by lia. apply Hhigh. lia.
Qed.
End table.

Lemma build_bits_set_lookup (size i : nat) :
  Z.of_nat size <= 65536 -> (i < size)%nat ->
  build_bits_set size !! i = Some (popcount (Z.of_nat i)).
Proof.
  intros Hsize Hi.
  destruct (build_prefix size size) as (_ & Hlow & _); [lia|lia|].
  apply Hlow, Hi.
Qed.

Lemma build_bits_set_length (size : nat) :
  Z.of_nat size <= 65536 -> length (build_bits_set size) = size.
Proof.
  intros Hsize. destruct (build_prefix size size) as (Hlen & _); [lia|lia|].
  exact Hlen.
Qed.

Lemma flat_map_pair_lookup (l : list Z) (i : nat) :
  flat_map (fun v => [v; v + 1]) l !! i
  = (fun v => v + Z.of_nat (i mod 2)) <$> l !! (i / 2)%nat.
Proof.
  revert i. induction l as [|v l IH]; intros i; [reflexivity|].
  cbn [flat_map app].
  destruct i as [|[|i]]; cbn [lookup list_lookup].
  - cbn. f_equal. lia.
  - reflexivity.
  - rewrite IH.
    replace (S (S i)) with (i + 1 * 2)%nat by lia.
    rewrite Nat.div_add, Nat.Div0.mod_add by lia.
    replace (i / 2 + 1)%nat with (S (i / 2)) by lia. reflexivity.
Qed.

Lemma popcount_table_length bits : length (popcount_table bits) = (2 ^ bits)%nat.
Proof.
  induction bits as [|b IH]; [reflexivity|].
  cbn [popcount_table].
  rewrite (flat_map_constant_length (c := 2%nat)) by reflexivity.
  rewrite IH. cbn [Nat.pow]. lia.
Qed.

Lemma popcount_table_lookup bits i :
  (i < 2 ^ bits)%nat -> popcount_table bits !! i = Some (popcount (Z.of_nat i)).
Proof.
  revert i. induction bits as [|b IH]; intros i Hi.
  - cbn in Hi. replace i with 0%nat by lia. reflexivity.
  - cbn [popcount_table]. rewrite flat_map_pair_lookup, IH.
    + cbn [fmap option_fmap option_map]. f_equal.
      rewrite (popcount_step (Z.of_nat i)) by lia.
      rewrite land_1_mod, Nat2Z.inj_div, Nat2Z.inj_mod.
      change (Z.of_nat 2) with 2. lia.
    + cbn [Nat.pow] in Hi. apply Nat.Div0.div_lt_upper_bound. lia.
Qed.

(** The table of the source is the table of the population counts. *)
Lemma bits_set_popcount_table : bits_set = popcount_table N_BITS.
Proof.
  assert (Hsize : Z.of_nat (2 ^ N_BITS) = 65536).
  { rewrite Nat2Z.inj_pow. reflexivity. }
  unfold bits_set. apply list_eq. intros i.
  destruct (decide (i < 2 ^ N_BITS)%nat) as [Hi|Hi].
  - rewrite build_bits_set_lookup, popcount_table_lookup by (assumption || lia).
    reflexivity.
  - rewrite (lookup_ge_None_2 (build_bits_set _))
      by (rewrite build_bits_set_length by lia; lia).
    rewrite lookup_ge_None_2 by (rewrite popcount_table_length; lia).
    reflexivity.
Qed.

Lemma bits_set_lookup (v : Z) :
  in_u16 v -> bits_set !!! Z.to_nat v = popcount v.
Proof.
  intros [Hlo Hhi]. apply list_lookup_total_correct.
  unfold bits_set. rewrite build_bits_set_lookup.
  - rewrite Z2Nat.id by lia. reflexivity.
  - rewrite Nat2Z.inj_pow. change (Z.of_nat 2 ^ Z.of_nat N_BITS) with 65536. lia.
  - apply Nat2Z.inj_lt. rewrite Z2Nat.id, Nat2Z.inj_pow by lia.
    change (Z.of_nat 2 ^ Z.of_nat N_BITS) with 65536. lia.
Qed.

(** ** Integers and bit vectors *)

Lemma sum_list_app l1 l2 : sum_list (l1 ++ l2) = sum_list l1 + sum_list l2.
Proof.
  unfold sum_list. induction l1 as [|v l1 IH]; cbn [fold_right app]; lia.
Qed.

Lemma bit_of_int n i : 0 <= i -> Z.land (Z.shiftr n i) 1 = (n / 2 ^ i) mod 2.
Proof. intros Hi. rewrite land_1_mod, Z.shiftr_div_pow2 by lia. reflexivity. Qed.

Lemma bit_weight b i : 0 <= b < 2 -> b * 2 ^ (i * b) = 2 ^ i * b.
Proof.
  intros Hb. assert (b = 0 \/ b = 1) as [-> | ->] by lia.
  - lia.
  - rewrite Z.mul_1_r. lia.
Qed.

Lemma row_to_int_bits (k : nat) (n : Z) :
  row_to_int
    (map (fun i => Z.land (Z.shiftr n (Z.of_nat i)) 1) (seq 0 k)) = n mod 2 ^ Z.of_nat k.
Proof.
  unfold row_to_int. induction k as [|k IH].
  - cbn. rewrite Z.mod_1_r. reflexivity.
  - rewrite seq_S, map_app, imap_app, sum_list_app, IH.
    rewrite length_map, length_seq. cbn [map imap sum_list fold_right Nat.add].
    rewrite Nat.add_0_r, bit_of_int by lia.
    rewrite bit_weight by (apply Z.mod_pos_bound; lia).
    rewrite Nat2Z.inj_succ, Z.pow_succ_r by lia.
    rewrite (Z.mul_comm 2), Z.rem_mul_r by lia. lia.
Qed.

(** Away from the empty sequence the two conversions are inverse. *)
Lemma vectors_to_ints_to_vectors (S : list Z) :
  S <> [] -> Forall in_u16 S -> vectors_to_ints (ints_to_vectors S) = Some S.
Proof.
  intros Hne HS. unfold ints_to_vectors.
  set (bits := fun n => map _ (seq 0 N_BITS)).
  assert (Hmatrix : np_array (map bits S) = Array2 (map bits S))
    by (destruct S; [congruence|reflexivity]).
  rewrite Hmatrix. cbn [vectors_to_ints]. f_equal.
  rewrite map_map. rewrite <- (map_id S) at 2.
  apply map_ext_Forall. subst bits. cbn beta.
  eapply Forall_impl; [exact HS|]. intros v [Hlo Hhi]. cbn beta.
  rewrite row_to_int_bits. apply Z.mod_small.
  change (2 ^ Z.of_nat N_BITS) with 65536. lia.
Qed.

(** C8 (the code departs from the claim): on the empty sequence
    [ints_to_vectors] gives [np.array([])], an array of one dimension, not the
    matrix of shape [(0, N_BITS)] its documentation announces, and
    [vectors_to_ints] fails on [vectors.shape[1]]: the round trip raises
    [IndexError] where the claim promises the empty sequence back. *)
Theorem round_trip_empty_sequence :
  vectors_to_ints (ints_to_vectors []) = None
  /\ vectors_to_ints (ints_to_vectors []) <> Some [].
Proof. split; [reflexivity|discriminate]. Qed.

(** ** Matrices *)

Lemma get2_set2 (D : matrix) i j v i' j' :
  get2 (set2 D i j v) i' j'
  = if decide (i = i' /\ j = j' /\ (i < length D)%nat /\ (j < length (D !!! i))%nat)
    then u16 v else get2 D i' j'.
Proof.
  unfold get2, set2. rewrite list_lookup_total_insert.
  destruct (decide (i = i' /\ (i < length D)%nat)) as [[-> Hi]|Hn].
  - rewrite list_lookup_total_insert.
    destruct (decide (j = j' /\ (j < length (D !!! i'))%nat)) as [Hj|Hj].
    + rewrite decide_True by tauto. reflexivity.
    + rewrite decide_False by tauto. reflexivity.
  - rewrite decide_False by tauto. reflexivity.
Qed.

Lemma get2_set2_ne (D : matrix) i j v i' j' :
  (i, j) <> (i', j') -> get2 (set2 D i j v) i' j' = get2 D i' j'.
Proof.
  intros Hne. rewrite get2_set2. case_decide; [|reflexivity].
  exfalso. apply Hne. f_equal; tauto.
Qed.

Lemma set2_length (D : matrix) i j v : length (set2 D i j v) = length D.
Proof. apply length_insert. Qed.

Lemma set2_row_length (D : matrix) i j v k :
  length (set2 D i j v !!! k) = length (D !!! k).
Proof.
  unfold set2. rewrite list_lookup_total_insert.
  case_decide as H; [|reflexivity]. destruct H as [-> _]. apply length_insert.
Qed.

Lemma has_shape_set2 rows cols (D : matrix) i j v :
  has_shape rows cols D -> has_shape rows cols (set2 D i j v).
Proof.
  intros [Hlen Hrows]. split; [rewrite set2_length; exact Hlen|].
  unfold set2. destruct (decide (i < length D)%nat) as [Hi|Hi].
  - apply Forall_insert; [exact Hrows|]. rewrite length_insert.
    rewrite Forall_lookup in Hrows. apply (Hrows i).
    apply list_lookup_lookup_total_lt, Hi.
  - rewrite list_insert_ge by lia. exact Hrows.
Qed.

Lemma has_shape_row rows cols (D : matrix) i :
  has_shape rows cols D -> (i < rows)%nat -> length (D !!! i) = cols.
Proof.
  intros [Hlen Hrows] Hi. rewrite Forall_lookup in Hrows. apply (Hrows i).
  apply list_lookup_lookup_total_lt. lia.
Qed.

Lemma has_shape_replicate rows cols v :
  has_shape rows cols (replicate rows (replicate cols v)).
Proof.
  split; [apply length_replicate|]. apply Forall_replicate, length_replicate.
Qed.

(** ** The relaxation of [dtw_core] *)



Lemma dtw_core_row_major D pen P :
  dtw_core D pen P
  = fold_left (fun st c => dtw_cell pen c.1 c.2 st)
              (row_major (shape0 D) (shape1 D)) (D, P).
Proof.
  unfold dtw_core, row_major.
  generalize (seq 0 (shape1 D - 1)) as js. generalize (D, P) as st.
  generalize (seq 0 (shape0 D - 1)) as is_. clear.
  induction is_ as [|i is_ IH]; intros st js; [reflexivity|].
  cbn [fold_left flat_map]. rewrite fold_left_app, IH. f_equal.
  generalize st. clear. induction js as [|j js IH]; intros st; [reflexivity|].
  cbn [map fold_left]. rewrite IH. reflexivity.
Qed.

(** The cells of [row_major] are those with [i] in [0 .. rows - 2] and [j] in
    [0 .. cols - 2], each once, a row before the next. *)
Lemma row_major_cells rows cols i j :
  In (i, j) (row_major rows cols) <-> (i < rows - 1)%nat /\ (j < cols - 1)%nat.
Proof.
  unfold row_major. rewrite in_flat_map. split.
  - intros (i' & Hi' & Hij). apply in_map_iff in Hij as (j' & Heq & Hj').
    injection Heq as <- <-. apply in_seq in Hi', Hj'. lia.
  - intros [Hi Hj]. exists i. split; [apply in_seq; lia|].
    apply in_map_iff. exists j. split; [reflexivity|apply in_seq; lia].
Qed.

Example row_major_3_4 :
  row_major 3 4 = [(0, 0); (0, 1); (0, 2); (1, 0); (1, 1); (1, 2)]%nat.
Proof. reflexivity. Qed.




(** ** The traceback of [dtw] *)

Lemma dtw_cell_shape rows cols pen i j (D P : matrix) :
  has_shape rows cols D -> has_shape rows cols P ->
  has_shape rows cols (dtw_cell pen i j (D, P)).1
  /\ has_shape rows cols (dtw_cell pen i j (D, P)).2.
Proof.
  intros HD HP. unfold dtw_cell.
  repeat match goal with
         | |- context [if ?b then _ else _] => destruct b
         end; cbn [fst snd]; auto using has_shape_set2.
Qed.

Lemma dtw_cells_shape rows cols pen cells (st : matrix * matrix) :
  has_shape rows cols st.1 -> has_shape rows cols st.2 ->
  let st' := fold_left (fun st c => dtw_cell pen c.1 c.2 st) cells st in
  has_shape rows cols st'.1 /\ has_shape rows cols st'.2.
Proof.
  revert st. induction cells as [|[i j] cells IH]; intros [D P] HD HP; cbn zeta.
  - auto.
  - cbn [fold_left]. cbn [fst snd] in *.
    destruct (dtw_cell_shape rows cols pen i j D P HD HP). apply IH; assumption.
Qed.

Lemma dtw_core_shape rows cols pen (D P : matrix) :
  has_shape rows cols D -> has_shape rows cols P ->
  has_shape rows cols (dtw_core D pen P).1
  /\ has_shape rows cols (dtw_core D pen P).2.
Proof.
  intros HD HP. rewrite dtw_core_row_major.
  apply (dtw_cells_shape rows cols pen _ (D, P)); assumption.
Qed.

Lemma has_shape_shape0 rows cols (D : matrix) : has_shape rows cols D -> shape0 D = rows.
Proof. intros [Hlen _]. exact Hlen. Qed.

Lemma has_shape_shape1 rows cols (D : matrix) :
  has_shape rows cols D -> (1 <= rows)%nat -> shape1 D = cols.
Proof. intros HD Hrows. unfold shape1. apply (has_shape_row rows); [exact HD|lia]. Qed.

Lemma argmin_from_first_min (p l : list Z) (best : Z) (besti : nat) :
  (besti < length p)%nat -> p !!! besti = best -> first_min_from 0 p besti ->
  first_min_from 0 (p ++ l) (argmin_from best besti (length p) l).
Proof.
  revert p best besti. induction l as [|v l IH]; intros p best besti Hlt Hbest Hmin.
  - rewrite app_nil_r. exact Hmin.
  - cbn [argmin_from].
    replace (p ++ v :: l) with ((p ++ [v]) ++ l) by (rewrite <- app_assoc; reflexivity).
    replace (S (length p)) with (length (p ++ [v]))
      by (rewrite length_app; cbn [length]; lia).
    destruct Hmin as (_ & Hle & Hfirst).
    assert (Hlast : (p ++ [v]) !!! length p = v).
    { rewrite lookup_total_app_r, Nat.sub_diag by lia. reflexivity. }
    destruct (v <? best) eqn:Hv; [apply Z.ltb_lt in Hv|apply Z.ltb_ge in Hv];
      apply IH.
    + rewrite length_app. cbn [length]. lia.
    + exact Hlast.
    + unfold first_min_from. rewrite Hlast, length_app. cbn [length].
      split; [lia|]. split; intros m Hm.
      * destruct (decide (m = length p)) as [->|Hne]; [rewrite Hlast; lia|].
        rewrite lookup_total_app_l by lia.
        specialize (Hle m). lia.
      * rewrite lookup_total_app_l by lia. specialize (Hle m). lia.
    + rewrite length_app. cbn [length]. lia.
    + rewrite lookup_total_app_l by lia. exact Hbest.
    + unfold first_min_from. rewrite lookup_total_app_l, length_app by lia.
      cbn [length]. split; [lia|]. split; intros m Hm.
      * destruct (decide (m = length p)) as [->|Hne]; [rewrite Hlast; lia|].
        rewrite lookup_total_app_l by lia. apply Hle. lia.
      * rewrite lookup_total_app_l by lia. apply Hfirst. lia.
Qed.

Lemma argmin_first_min (l : list Z) :
  l <> [] -> exists k, argmin l = Some k /\ first_min_from 0 l k.
Proof.
  destruct l as [|v l]; [congruence|]. intros _.
  exists (argmin_from v 0%nat 1%nat l). split; [reflexivity|].
  apply (argmin_from_first_min [v] l v 0%nat).
  - cbn. lia.
  - reflexivity.
  - split; [cbn; lia|]. split; intros m Hm; cbn [length] in Hm.
    + replace m with 0%nat by lia. lia.
    + lia.
Qed.

Lemma first_min_from_drop (offset : nat) (l : list Z) (k : nat) :
  first_min_from 0 (drop offset l) k -> first_min_from offset l (offset + k).
Proof.
  intros (Hk & Hle & Hfirst). rewrite length_drop in *.
  rewrite lookup_total_drop in *. split; [lia|]. split; intros m Hm.
  - specialize (Hle (m - offset)%nat). rewrite lookup_total_drop in Hle.
    replace (offset + (m - offset))%nat with m in Hle by lia. apply Hle. lia.
  - specialize (Hfirst (m - offset)%nat). rewrite lookup_total_drop in Hfirst.
    replace (offset + (m - offset))%nat with m in Hfirst by lia. apply Hfirst. lia.
Qed.

Lemma py_index_nat {A} `{Inhabited A} (l : list A) (i : nat) :
  (i < length l)%nat -> py_index l (Z.of_nat i) = Some (l !!! i).
Proof.
  intros Hi. unfold py_index.
  replace (0 <=? Z.of_nat i) with true by (symmetry; apply Z.leb_le; lia).
  replace (Z.of_nat i <? Z.of_nat (length l)) with true
    by (symmetry; apply Z.ltb_lt; lia).
  cbn [andb]. rewrite Nat2Z.id. apply list_lookup_lookup_total_lt, Hi.
Qed.

Lemma py_index_last {A} `{Inhabited A} (l : list A) :
  (1 <= length l)%nat -> py_index l (-1) = Some (l !!! (length l - 1)%nat).
Proof.
  intros Hl. unfold py_index. cbn [Z.leb Z.compare andb].
  replace (- Z.of_nat (length l) <=? -1) with true
    by (symmetry; apply Z.leb_le; lia).
  cbn [andb Z.ltb Z.compare].
  replace (Z.to_nat (Z.of_nat (length l) + -1)) with (length l - 1)%nat by lia.
  apply list_lookup_lookup_total_lt. lia.
Qed.

Lemma mapM_last_column cols (D : matrix) :
  Forall (fun row => length row = cols) D -> (1 <= cols)%nat ->
  mapM (fun row => py_index row (-1)) D = Some (last_column D).
Proof.
  intros HD Hcols. apply mapM_Some_2. unfold last_column.
  induction HD as [|row D Hrow HD IH]; constructor; [|exact IH].
  apply py_index_last. lia.
Qed.

Lemma gully_offset (gully : Q) (n : Z) :
  (0 <= gully)%Q -> (gully < 1)%Q -> 1 <= n ->
  int_of_float (gully * inject_Z n) = Qfloor (gully * inject_Z n)
  /\ 0 <= Qfloor (gully * inject_Z n) < n.
Proof.
  intros H0 H1 Hn.
  assert (Hn' : (0 < inject_Z n)%Q)
    by (change 0%Q with (inject_Z 0); rewrite <- Zlt_Qlt; lia).
  assert (Hnonneg : (0 <= gully * inject_Z n)%Q).
  { apply Qmult_le_0_compat; [exact H0|apply Qlt_le_weak, Hn']. }
  assert (Hbelow : (gully * inject_Z n < inject_Z n)%Q).
  { rewrite <- (Qmult_1_l (inject_Z n)) at 2.
    apply Qmult_lt_compat_r; assumption. }
  split.
  - unfold int_of_float. apply Qle_bool_iff in Hnonneg. rewrite Hnonneg. reflexivity.
  - split.
    + rewrite <- (Qfloor_Z 0). apply Qfloor_resp_le, Hnonneg.
    + rewrite Zlt_Qlt. eapply Qle_lt_trans; [apply Qfloor_le|exact Hbelow].
Qed.

Lemma lookup_total_map {A B} `{Inhabited A, Inhabited B} (f : A -> B) (l : list A) i :
  (i < length l)%nat -> map f l !!! i = f (l !!! i).
Proof. intros Hi. apply (list_lookup_total_fmap f l i Hi). Qed.

Lemma getitem2_nat rows cols (D : matrix) (i j : nat) :
  has_shape rows cols D -> (i < rows)%nat -> (j < cols)%nat ->
  getitem2 D (Z.of_nat i) (Z.of_nat j) = Some (get2 D i j).
Proof.
  intros HD Hi Hj. unfold getitem2, get2.
  rewrite py_index_nat by (destruct HD; lia). cbn [mbind option_bind].
  apply py_index_nat. rewrite (has_shape_row rows cols) by assumption. exact Hj.
Qed.

Lemma last_column_lookup rows cols (D : matrix) (i : nat) :
  has_shape rows cols D -> (i < rows)%nat ->
  last_column D !!! i = get2 D i (cols - 1).
Proof.
  intros HD Hi. unfold last_column, get2.
  rewrite lookup_total_map by (destruct HD; lia).
  rewrite (has_shape_row rows cols) by assumption. reflexivity.
Qed.

Lemma last_column_length (D : matrix) : length (last_column D) = length D.
Proof. apply length_map. Qed.

Lemma dtw_endpoint_chosen rows cols (D : matrix) (gully : Q) :
  has_shape rows cols D -> (1 <= rows)%nat -> (1 <= cols)%nat ->
  (0 <= gully)%Q -> (gully < 1)%Q ->
  exists e : nat * nat,
    dtw_endpoint D gully = Some (Z.of_nat e.1, Z.of_nat e.2)
    /\ chosen_endpoint D
         (Z.to_nat (Qfloor (gully * inject_Z (Z.min (Z.of_nat rows) (Z.of_nat cols))))) e
    /\ (e.1 < rows)%nat /\ (e.2 < cols)%nat.
Proof.
  intros HD Hrows Hcols H0 H1.
  pose proof (has_shape_shape0 _ _ _ HD) as Hs0.
  pose proof (has_shape_shape1 _ _ _ HD Hrows) as Hs1.
  destruct (gully_offset gully (Z.min (Z.of_nat rows) (Z.of_nat cols)) H0 H1)
    as (Hint & Hoff); [lia|].
  unfold dtw_endpoint. rewrite Hs0, Hs1, Hint.
  set (g := Qfloor _) in *. set (offset := Z.to_nat g).
  assert (Hg : g = Z.of_nat offset) by (subst offset; lia).
  assert (Hlen : length D = rows) by (destruct HD; assumption).
  assert (Hlastlen : length (last_row D) = cols).
  { unfold last_row. apply (has_shape_row rows); [exact HD|lia]. }
  rewrite (mapM_last_column cols) by (destruct HD; assumption).
  cbn [mbind option_bind]. unfold py_slice_from.
  replace (g <? 0) with false by (symmetry; apply Z.ltb_ge; lia).
  fold offset.
  destruct (argmin_first_min (drop offset (last_column D))) as (i & Hi & Hmini).
  { intros Hnil. apply (f_equal length) in Hnil.
    rewrite length_drop, last_column_length in Hnil. cbn in Hnil. lia. }
  rewrite Hi. cbn [mbind option_bind].
  rewrite py_index_last by lia. cbn [mbind option_bind]. fold (last_row D).
  destruct (argmin_first_min (drop offset (last_row D))) as (j & Hj & Hminj).
  { intros Hnil. apply (f_equal length) in Hnil.
    rewrite length_drop in Hnil. cbn in Hnil. lia. }
  rewrite Hj. cbn [mbind option_bind].
  apply first_min_from_drop in Hmini, Hminj.
  assert (Hi' : (offset + i < rows)%nat).
  { destruct Hmini as (Hr & _). rewrite last_column_length in Hr. lia. }
  assert (Hj' : (offset + j < cols)%nat).
  { destruct Hminj as (Hr & _). lia. }
  unfold getitem2. rewrite py_index_last by lia. cbn [mbind option_bind].
  fold (last_row D).
  replace (Z.of_nat j + g) with (Z.of_nat (offset + j)) by lia.
  replace (Z.of_nat i + g) with (Z.of_nat (offset + i)) by lia.
  rewrite py_index_nat by lia. cbn [mbind option_bind].
  rewrite py_index_nat by lia. cbn [mbind option_bind].
  rewrite py_index_last by (rewrite (has_shape_row rows cols); assumption || lia).
  cbn [mbind option_bind].
  rewrite (has_shape_row rows cols) by assumption.
  fold (get2 D (offset + i) (cols - 1)).
  rewrite <- (last_column_lookup rows cols) by assumption.
  destruct (last_column D !!! (offset + i)%nat <? last_row D !!! (offset + j)%nat)
    eqn:Hcmp; [apply Z.ltb_lt in Hcmp|apply Z.ltb_ge in Hcmp].
  - exists ((offset + i)%nat, (cols - 1)%nat). cbn [fst snd].
    split; [do 2 f_equal; lia|]. split; [|lia].
    exists (offset + i)%nat, (offset + j)%nat. rewrite Hs1. auto.
  - exists ((rows - 1)%nat, (offset + j)%nat). cbn [fst snd].
    split; [do 2 f_equal; lia|]. split; [|lia].
    exists (offset + i)%nat, (offset + j)%nat. rewrite Hs0. auto.
Qed.




(** ** The score of [dtw] on the border *)

Lemma float_le_nan_r a : float_le a NaN = false.
Proof. destruct a; reflexivity. Qed.

(** C6 (the code departs from the claim): the path length of every cell of
    the first row and of the first column stays zero, and the traceback can
    end there.  On the matrix of one cell holding 0, for every gully in
    [0, 1) and every penalty, the score is 0/0.0, that is [nan], which is
    not greater than or equal to 0; the same happens for two equal sequences
    [5, 5] at gully 0. *)
Theorem dtw_score_not_a_number (gully : Q) (penalty : Z) :
  (0 <= gully)%Q -> (gully < 1)%Q ->
  dtw [[0]] gully penalty = Some NaN
  /\ float_le (Fin 0) NaN = false
  /\ dtw (int_dist [5; 5] [5; 5] (np_empty 2 2) bits_set) 0 1 = Some NaN.
Proof.
  intros H0 H1. split; [|split; [reflexivity|]].
  - destruct (gully_offset gully 1 H0 H1) as [Hint Hoff]; [lia|].
    assert (Hzero : int_of_float (gully * inject_Z 1) = 0) by lia.
    unfold dtw.
    change (dtw_core [[0]] penalty (np_zeros (shape0 [[0]]) (shape1 [[0]])))
      with ([[0]], [[0]]).
    cbn iota beta. unfold dtw_endpoint.
    change (Z.min (Z.of_nat (shape0 [[0]])) (Z.of_nat (shape1 [[0]]))) with 1.
    rewrite Hzero. reflexivity.
  - rewrite bits_set_popcount_table. vm_compute. reflexivity.
Qed.

Lemma dtw_score_not_a_number_witness :
  dtw [[0]] 0 0 = Some NaN
  /\ float_le (Fin 0) NaN = false
  /\ dtw (int_dist [5; 5] [5; 5] (np_empty 2 2) bits_set) 0 1 = Some NaN.
Proof.
  apply (dtw_score_not_a_number 0 0).
  - discriminate.
  - reflexivity.
Defined.

(** ** The Keogh envelopes and bound *)

Lemma int_dist_example :
  int_dist [0; 0] [1; 0; 0] (np_empty 2 3) bits_set = [[1; 0; 0]; [1; 0; 0]].
Proof. rewrite bits_set_popcount_table. vm_compute. reflexivity. Qed.

Lemma dtw_core_example (penalty : Z) :
  0 <= penalty ->
  dtw_core [[1; 0; 0]; [1; 0; 0]] penalty (np_zeros 2 3)
  = ([[1; 0; 0]; [1; (if penalty =? 0 then 0 else 1); 0]],
     [[0; 0; 0]; [0; 1; 1]]).
Proof.
  intros Hp. unfold dtw_core.
  change (Nat.sub (shape0 [[1; 0; 0]; [1; 0; 0]]) 1) with 1%nat.
  change (Nat.sub (shape1 [[1; 0; 0]; [1; 0; 0]]) 1) with 2%nat.
  cbn [seq fold_left].
  destruct (Z.eqb_spec penalty 0) as [->|Hne]; [reflexivity|].
  unfold dtw_cell at 2. cbn [Nat.add].
  change (get2 [[1; 0; 0]; [1; 0; 0]] 0 0) with 1.
  change (get2 [[1; 0; 0]; [1; 0; 0]] 0 1) with 0.
  change (get2 [[1; 0; 0]; [1; 0; 0]] 1 0) with 1.
  replace (1 <=? 0 + penalty) with true by (symmetry; apply Z.leb_le; lia).
  replace (1 <=? 1 + penalty) with true by (symmetry; apply Z.leb_le; lia).
  cbn [andb].
  change (set2 [[1; 0; 0]; [1; 0; 0]] 1 1 (get2 [[1; 0; 0]; [1; 0; 0]] 1 1 + 1))
    with [[1; 0; 0]; [1; 1; 0]].
  change (set2 (np_zeros 2 3) 1 1
            (get2 (np_zeros 2 3) 1 1 + (get2 (np_zeros 2 3) 0 0 + 1)))
    with [[0; 0; 0]; [0; 1; 0]].
  unfold dtw_cell. cbn [Nat.add].
  change (get2 [[1; 0; 0]; [1; 1; 0]] 0 1) with 0.
  change (get2 [[1; 0; 0]; [1; 1; 0]] 0 2) with 0.
  change (get2 [[1; 0; 0]; [1; 1; 0]] 1 1) with 1.
  replace (0 <=? 0 + penalty) with true by (symmetry; apply Z.leb_le; lia).
  replace (0 <=? 1 + penalty) with true by (symmetry; apply Z.leb_le; lia).
  reflexivity.
Qed.

(** C1 (the code departs from the claim): for the query [0, 0], whose
    envelopes of radius 3 are both [0, 0], and the candidate [1, 0, 0], the
    bound of [lb_keogh] is 1/2 while the score of [dtw] at gully 0 is 0/1,
    for every penalty: the bound exceeds the cost it should bound from
    below. *)
Theorem lb_keogh_exceeds_dtw (penalty : Z) :
  0 <= penalty ->
  keogh_envelopes [0; 0] 3 = Some ([0; 0], [0; 0])
  /\ lb_keogh [0; 0] [0; 0] [1; 0; 0] bits_set = Fin (1 # 2)
  /\ dtw (int_dist [0; 0] [1; 0; 0] (np_empty 2 3) bits_set) 0 penalty
     = Some (Fin (0 # 1))
  /\ float_le (Fin (1 # 2)) (Fin (0 # 1)) = false.
Proof.
  intros Hp. split; [reflexivity|]. split; [|split; [|reflexivity]].
  - rewrite bits_set_popcount_table. vm_compute. reflexivity.
  - rewrite int_dist_example. unfold dtw.
    change (np_zeros (shape0 [[1; 0; 0]; [1; 0; 0]]) (shape1 [[1; 0; 0]; [1; 0; 0]]))
      with (np_zeros 2 3).
    rewrite dtw_core_example by exact Hp.
    destruct (penalty =? 0); vm_compute; reflexivity.
Qed.

Lemma lb_keogh_exceeds_dtw_witness :
  keogh_envelopes [0; 0] 3 = Some ([0; 0], [0; 0])
  /\ lb_keogh [0; 0] [0; 0] [1; 0; 0] bits_set = Fin (1 # 2)
  /\ dtw (int_dist [0; 0] [1; 0; 0] (np_empty 2 3) bits_set) 0 1
     = Some (Fin (0 # 1))
  /\ float_le (Fin (1 # 2)) (Fin (0 # 1)) = false.
Proof. apply (lb_keogh_exceeds_dtw 1). lia. Defined.

Lemma reflect_in_range (n i : nat) : (i < n)%nat -> reflect n (Z.of_nat i) = i.
Proof.
  intros Hi. unfold reflect. rewrite Z.mod_small by lia.
  replace (Z.of_nat i <? Z.of_nat n) with true by (symmetry; apply Z.ltb_lt; lia).
  apply Nat2Z.id.
Qed.

Lemma map_lookup_total_seq (x : list Z) :
  map (fun i => x !!! i) (seq 0 (length x)) = x.
Proof.
  induction x as [|v x IH]; [reflexivity|].
  cbn [length seq map]. f_equal.
  rewrite <- seq_shift, map_map. exact IH.
Qed.

Lemma map_u16_in_range (x : list Z) : Forall in_u16 x -> map u16 x = x.
Proof.
  intros Hx. rewrite <- (map_id x) at 2. apply map_ext_Forall.
  eapply Forall_impl; [exact Hx|]. intros v Hv. apply Z.mod_small. exact Hv.
Qed.

Lemma rank_filter1d_size_one pick (x : list Z) : rank_filter1d pick x 1 = Some x.
Proof.
  unfold rank_filter1d. cbn [Z.ltb Z.compare Pos.compare].
  f_equal. rewrite <- (map_lookup_total_seq x) at 2.
  apply map_ext_in. intros i Hi. apply in_seq in Hi.
  unfold window. change (Z.to_nat 1) with 1%nat. cbn [seq map fold_left].
  change (1 / 2)%nat with 0%nat.
  replace (Z.of_nat i - Z.of_nat 0 + Z.of_nat 0) with (Z.of_nat i) by lia.
  rewrite reflect_in_range by lia. reflexivity.
Qed.

Lemma keogh_envelopes_length (x : list Z) (r : Z) :
  1 <= r ->
  exists u l, keogh_envelopes x r = Some (u, l)
              /\ length u = length x /\ length l = length x.
Proof.
  intros Hr. unfold keogh_envelopes, maximum_filter1d, minimum_filter1d, rank_filter1d.
  replace (r <? 1) with false by (symmetry; apply Z.ltb_ge; lia).
  cbn [mbind option_bind]. eexists _, _. split; [reflexivity|].
  rewrite !length_map, length_seq. split; reflexivity.
Qed.

(** C4 (the code departs from the claim): [keogh_envelopes] hands its radius
    to the filters as the width of the window, so the window of radius [r]
    has [r] cells, not [2r + 1].  With radius 1 the window is the cell itself
    and both envelopes are the sequence: on [1, 5, 2] the upper envelope is
    [1, 5, 2], where the maximum over the cells [i - 1 .. i + 1] is
    [5, 5, 5]. *)
Theorem keogh_envelopes_radius_one (x : list Z) :
  Forall in_u16 x -> keogh_envelopes x 1 = Some (x, x).
Proof.
  intros Hx. unfold keogh_envelopes, maximum_filter1d, minimum_filter1d.
  rewrite !rank_filter1d_size_one. cbn [mbind option_bind].
  rewrite map_u16_in_range by exact Hx. reflexivity.
Qed.

Lemma keogh_envelopes_radius_one_witness :
  keogh_envelopes [1; 5; 2] 1 = Some ([1; 5; 2], [1; 5; 2]).
Proof.
  apply (keogh_envelopes_radius_one [1; 5; 2]).
  repeat constructor; unfold in_u16; lia.
Defined.

(** With a radius that is the length of the sequence the envelopes are not
    the maximum and the minimum of the whole sequence either: the window of
    three cells around the last cell of [1, 5, 2] misses the 1. *)
Lemma keogh_envelopes_radius_length :
  keogh_envelopes [1; 5; 2] 3 = Some ([5; 5; 5], [1; 1; 2]).
Proof. reflexivity. Qed.

(** ** The range of candidates within the length tolerance *)






(** ** The loop of the matcher *)



Section match_loop.
Variables (query : list Z) (sequences : list (list Z)) (u l : list Z).
Variables (gully : Q) (penalty : Z).

Let step := match_candidate query sequences u l gully penalty.

Lemma match_candidate_cases best matches scores n st :
  step (Some (best, matches, scores)) n = Some st ->
  exists candidate,
    sequences !! n = Some candidate
    /\ ((float_lt (lb_keogh u l candidate bits_set) best = false
         /\ st = (best, matches, scores))
        \/ (float_lt (lb_keogh u l candidate bits_set) best = true
            /\ exists score,
                dtw (int_dist query candidate
                       (np_empty (length query) (length candidate)) bits_set)
                    gully penalty = Some score
                /\ st = (if float_lt score best then score else best,
                         matches ++ [n], scores ++ [score]))).
Proof.
  unfold step, match_candidate. cbn [mbind option_bind].
  destruct (sequences !! n) as [candidate|]; [|discriminate].
  cbn [mbind option_bind]. intros Hst. exists candidate. split; [reflexivity|].
  destruct (float_lt (lb_keogh u l candidate bits_set) best).
  - right. split; [reflexivity|].
    destruct (dtw _ gully penalty) as [score|]; [|discriminate].
    cbn [mbind option_bind] in Hst. exists score. split; [reflexivity|].
    congruence.
  - left. split; [reflexivity|]. congruence.
Qed.

Lemma match_fold_None ns : fold_left step ns None = None.
Proof. induction ns as [|n ns IH]; [reflexivity|exact IH]. Qed.

Lemma match_fold_sublist ns best matches scores best' matches' scores' :
  fold_left step ns (Some (best, matches, scores)) = Some (best', matches', scores') ->
  exists ms ss,
    matches' = matches ++ ms /\ scores' = scores ++ ss
    /\ length ms = length ss /\ ms `sublist_of` ns.
Proof.
  revert best matches scores.
  induction ns as [|n ns IH]; intros best matches scores Hfold.
  - cbn [fold_left] in Hfold. injection Hfold as <- <- <-.
    exists [], []. rewrite !app_nil_r. repeat split; constructor.
  - cbn [fold_left] in Hfold.
    destruct (step (Some (best, matches, scores)) n) as [[[b m] s]|] eqn:Hstep;
      [|rewrite match_fold_None in Hfold; discriminate].
    destruct (IH _ _ _ Hfold) as (ms & ss & -> & -> & Hlen & Hsub).
    destruct (match_candidate_cases _ _ _ _ _ Hstep)
      as (candidate & _ & [[_ Heq]|[_ (score & _ & Heq)]]);
      injection Heq as -> -> ->.
    + exists ms, ss. repeat split; try assumption. apply sublist_cons, Hsub.
    + exists (n :: ms), (score :: ss). rewrite <- !app_assoc. cbn [app length].
      repeat split; try congruence. apply sublist_skip, Hsub.
Qed.
End match_loop.

Lemma insert_index_permutation scores n sorted :
  Permutation (insert_index scores n sorted) (n :: sorted).
Proof.
  induction sorted as [|m rest IH]; cbn [insert_index]; [reflexivity|].
  destruct (sorts_before _ _); [|reflexivity].
  rewrite IH. apply perm_swap.
Qed.

Lemma argsort_permutation scores :
  Permutation (argsort scores) (seq 0 (length scores)).
Proof.
  unfold argsort.
  assert (Hgen : forall ns acc,
             Permutation (fold_left (fun sorted n => insert_index scores n sorted) ns acc)
                         (ns ++ acc)).
  { induction ns as [|n ns IH]; intros acc; cbn [fold_left app]; [reflexivity|].
    rewrite IH, insert_index_permutation. symmetry. apply Permutation_middle. }
  rewrite Hgen, app_nil_r. reflexivity.
Qed.

Lemma map_lookup_total_seq_gen {A} `{Inhabited A} (x : list A) :
  map (fun i => x !!! i) (seq 0 (length x)) = x.
Proof.
  induction x as [|v x IH]; [reflexivity|].
  cbn [length seq map]. f_equal.
  rewrite <- seq_shift, map_map. exact IH.
Qed.

Lemma reorder_permutation {A} `{Inhabited A} (x : list A) (idx : list nat) :
  Permutation idx (seq 0 (length x)) ->
  Permutation (map (fun n => x !!! n) idx) x.
Proof.
  intros Hidx. etransitivity; [apply Permutation_map, Hidx|].
  rewrite map_lookup_total_seq_gen. reflexivity.
Qed.

(** What [match_one_sequence] returns, in terms of the loop. *)
Lemma match_one_sequence_inv query query_length sequences lengths
    length_tolerance radius gully penalty matches scores :
  match_one_sequence query query_length sequences lengths length_tolerance
                     radius gully penalty = Some (matches, scores) ->
  let start := searchsorted lengths (lower_length length_tolerance query_length) Left in
  let end_ := searchsorted lengths (upper_length length_tolerance query_length) Right in
  exists u l best ms ss,
    keogh_envelopes query radius = Some (u, l)
    /\ fold_left (match_candidate query sequences u l gully penalty)
                 (seq start (end_ - start)) (Some (PInf, [], []))
       = Some (best, ms, ss)
    /\ length ms = length ss
    /\ ms `sublist_of` seq start (end_ - start)
    /\ Permutation (zip matches scores) (zip ms ss)
    /\ Permutation matches ms
    /\ length matches = length scores.
Proof.
  intros Hmatch start end_. unfold match_one_sequence in Hmatch.
  fold start end_ in Hmatch.
  destruct (keogh_envelopes query radius) as [[u l]|]; [|discriminate].
  cbn [mbind option_bind] in Hmatch.
  destruct (fold_left _ _ _) as [[[best ms] ss]|] eqn:Hfold; [|discriminate].
  cbn [mbind option_bind] in Hmatch. injection Hmatch as <- <-.
  destruct (match_fold_sublist _ _ _ _ _ _ _ _ _ _ _ _ _ Hfold)
    as (ms' & ss' & Hms & Hss & Hlen & Hsub).
  cbn [app] in Hms, Hss. subst ms' ss'.
  exists u, l, best, ms, ss. repeat split; try assumption; try reflexivity.
  - pose proof (argsort_permutation ss) as Hperm.
    assert (Hzip : zip (map (fun n => ms !!! n) (argsort ss))
                       (map (fun n => ss !!! n) (argsort ss))
                   = map (fun n => (ms !!! n, ss !!! n)) (argsort ss)).
    { generalize (argsort ss). intros idx.
      induction idx as [|n idx IH]; [reflexivity|]. cbn [map zip zip_with].
      f_equal. exact IH. }
    rewrite Hzip, Hperm.
    assert (Hseq : map (fun n => (ms !!! n, ss !!! n)) (seq 0 (length ss)) = zip ms ss).
    { rewrite <- Hlen. clear -Hlen. revert ss Hlen.
      induction ms as [|m ms IH]; intros [|s ss] Hlen; try discriminate; [reflexivity|].
      cbn [length seq map zip zip_with]. f_equal.
      rewrite <- seq_shift, map_map. apply IH. cbn [length] in Hlen. lia. }
    rewrite Hseq. reflexivity.
  - apply reorder_permutation. rewrite Hlen. apply argsort_permutation.
  - rewrite !length_map. reflexivity.
Qed.


Lemma match_example :
  match_one_sequence [1; 2; 3] 3
    [[1]; [1; 3]; [1; 2; 3]; [1; 2; 3; 4]; [0; 1; 2; 3; 4; 5; 6]]
    [1; 2; 3; 4; 7] (1 # 2) 1 (1 # 2) 1
  = Some ([2; 1]%nat, [Fin (0 # 2); Fin 1]).
Proof.
  unfold match_one_sequence, match_candidate.
  rewrite bits_set_popcount_table. vm_compute. reflexivity.
Defined.


(** ** The first candidate of the range *)

Lemma keogh_envelopes_Some (x : list Z) (r : Z) (u l : list Z) :
  keogh_envelopes x r = Some (u, l) -> length u = length x /\ length l = length x.
Proof.
  unfold keogh_envelopes, maximum_filter1d, minimum_filter1d, rank_filter1d.
  destruct (r <? 1); [discriminate|]. cbn [mbind option_bind].
  intros Heq. injection Heq as <- <-.
  rewrite !length_map, length_seq. split; reflexivity.
Qed.

Lemma true_div_finite (n d : Z) : d <> 0 -> true_div n d = Fin (n # Z.to_pos d).
Proof.
  intros Hd. unfold true_div. destruct (Z.eqb_spec d 0); [contradiction|reflexivity].
Qed.

Lemma lb_keogh_finite (u l y table : list Z) :
  (0 < length u)%nat -> (0 < length y)%nat ->
  exists q, lb_keogh u l y table = Fin q.
Proof.
  intros Hu Hy. unfold lb_keogh.
  destruct (length u <? length y)%nat eqn:Hcmp; eexists; apply true_div_finite.
  - lia.
  - rewrite length_take. lia.
Qed.

Lemma lb_keogh_empty_candidate (u l table : list Z) : lb_keogh u l [] table = NaN.
Proof. unfold lb_keogh. cbn [length Nat.ltb Nat.leb]. rewrite !take_0. reflexivity. Qed.

(** C10 (as amended): when the range [[start, end)] is not empty and neither
    the query nor the candidate at [start] is empty, so that the Keogh bound
    of that candidate is a finite value below the initial threshold
    [np.inf], the candidate at [start] undergoes the alignment and, in the
    lists the matcher returns, [start] stands at exactly one position, with
    the score of its alignment at the same position of the scores. *)
Theorem first_candidate_aligned (query : list Z) (query_length : Q)
    (sequences : list (list Z)) (lengths : list Z) (length_tolerance : Q)
    (radius : Z) (gully : Q) (penalty : Z) (matches : list nat) (scores : list float)
    (candidate : list Z) :
  let start := searchsorted lengths (lower_length length_tolerance query_length) Left in
  let end_ := searchsorted lengths (upper_length length_tolerance query_length) Right in
  (start < end_)%nat ->
  query <> [] ->
  sequences !! start = Some candidate ->
  candidate <> [] ->
  match_one_sequence query query_length sequences lengths length_tolerance
                     radius gully penalty = Some (matches, scores) ->
  exists score k,
    dtw (int_dist query candidate (np_empty (length query) (length candidate)) bits_set)
        gully penalty = Some score
    /\ matches !! k = Some start
    /\ scores !! k = Some score
    /\ forall k', matches !! k' = Some start -> k' = k.
Proof.
  intros start end_ Hrange Hquery Hcandidate Hnonempty Hmatch.
  destruct (match_one_sequence_inv _ _ _ _ _ _ _ _ _ _ Hmatch)
    as (u & l & best & ms & ss & Henv & Hfold & Hlen & Hsub & Hzip & Hperm & _).
  fold start end_ in Hfold, Hsub.
  destruct (keogh_envelopes_Some _ _ _ _ Henv) as [Hu _].
  replace (end_ - start)%nat with (S (end_ - start - 1)) in Hfold by lia.
  cbn [seq fold_left] in Hfold.
  destruct (match_candidate query sequences u l gully penalty (Some (PInf, [], [])) start)
    as [[[b m] s]|] eqn:Hstep; [|rewrite match_fold_None in Hfold; discriminate].
  destruct (match_candidate_cases _ _ _ _ _ _ _ _ _ _ _ Hstep)
    as (candidate' & Hcandidate' & Hcases).
  assert (candidate' = candidate) as -> by congruence.
  destruct (lb_keogh_finite u l candidate bits_set) as [q Hq].
  { rewrite Hu. destruct query; [congruence|cbn; lia]. }
  { destruct candidate; [congruence|cbn; lia]. }
  rewrite Hq in Hcases. cbn [float_lt] in Hcases.
  destruct Hcases as [[Hfalse _]|[_ (score & Hscore & Hst)]]; [discriminate|].
  injection Hst as -> -> ->. cbn [app] in Hfold.
  destruct (match_fold_sublist _ _ _ _ _ _ _ _ _ _ _ _ _ Hfold)
    as (ms' & ss' & -> & -> & _ & _).
  cbn [app zip zip_with] in Hzip.
  assert (Hin : (start, score) ∈ zip matches scores).
  { apply list_elem_of_In. eapply Permutation_in; [symmetry; exact Hzip|].
    left. reflexivity. }
  apply list_elem_of_lookup_1 in Hin as [k Hk].
  apply lookup_zip_Some in Hk as [Hk1 Hk2].
  exists score, k. repeat split; try assumption.
  intros k' Hk'. apply (NoDup_lookup matches k' k start); try assumption.
  rewrite Hperm. eapply sublist_NoDup; [apply NoDup_seq|exact Hsub].
Qed.

Lemma first_candidate_aligned_witness :
  exists score k,
    dtw (int_dist [1; 2; 3] [1; 3] (np_empty (length [1; 2; 3]) (length [1; 3])) bits_set)
        (1 # 2) 1 = Some score
    /\ [2; 1]%nat !! k
       = Some (searchsorted [1; 2; 3; 4; 7] (lower_length (1 # 2) 3) Left)
    /\ [Fin (0 # 2); Fin 1] !! k = Some score
    /\ forall k',
        [2; 1]%nat !! k'
        = Some (searchsorted [1; 2; 3; 4; 7] (lower_length (1 # 2) 3) Left) ->
        k' = k.
Proof.
  apply (first_candidate_aligned [1; 2; 3] 3
           [[1]; [1; 3]; [1; 2; 3]; [1; 2; 3; 4]; [0; 1; 2; 3; 4; 5; 6]]
           [1; 2; 3; 4; 7] (1 # 2) 1 (1 # 2) 1 [2; 1]%nat [Fin (0 # 2); Fin 1] [1; 3]).
  - apply Nat.ltb_lt. reflexivity.
  - discriminate.
  - reflexivity.
  - discriminate.
  - exact match_example.
Defined.

(** C10, the claim as stated: with a length tolerance of 1 the candidate of
    length 0 is within the tolerance of a query of length 3; the range is
    [[0, 2)], the Keogh bound of the empty candidate at index 0 is 0/0.0,
    that is [nan], which is not below [np.inf], and index 0 is absent from
    the returned matches. *)
Lemma first_candidate_skipped :
  searchsorted [0; 3] (lower_length 1 3) Left = 0%nat
  /\ searchsorted [0; 3] (upper_length 1 3) Right = 2%nat
  /\ lb_keogh [1; 2; 3] [1; 2; 3] [] bits_set = NaN
  /\ float_lt NaN PInf = false
  /\ match_one_sequence [1; 2; 3] 3 [[]; [1; 2; 3]] [0; 3] 1 1 (1 # 2) 1
     = Some ([1%nat], [Fin (0 # 2)])
  /\ ~ In 0%nat [1%nat].
Proof.
  split; [reflexivity|]. split; [reflexivity|].
  split; [apply lb_keogh_empty_candidate|]. split; [reflexivity|]. split.
  - unfold match_one_sequence, match_candidate.
    rewrite bits_set_popcount_table. vm_compute. reflexivity.
  - intros [H|[]]. discriminate.
Qed.

(** ** What the matcher accepts *)

Lemma binsearch_range s key (a : list Z) (min_idx max_idx : nat) :
  (min_idx <= max_idx)%nat ->
  (min_idx <= binsearch s key a min_idx max_idx <= max_idx)%nat.
Proof.
  funelim (binsearch s key a min_idx max_idx); intros Hrange.
  - lia.
  - assert ((max_idx - min_idx) / 2 < max_idx - min_idx)%nat
      by (apply Nat.div_lt; lia).
    match goal with
    | IH : (_ <= _)%nat -> _ |- _ => specialize (IH ltac:(lia))
    end. lia.
  - assert ((max_idx - min_idx) / 2 < max_idx - min_idx)%nat
      by (apply Nat.div_lt; lia).
    match goal with
    | IH : (_ <= _)%nat -> _ |- _ => specialize (IH ltac:(lia))
    end. lia.
Qed.

Lemma searchsorted_le_length (a : list Z) (v : Q) (s : side) :
  (searchsorted a v s <= length a)%nat.
Proof. unfold searchsorted. apply binsearch_range. lia. Qed.

Lemma int_dist_shape rows cols (x y : list Z) (output table : list Z) (out : matrix) :
  has_shape rows cols out -> has_shape rows cols (int_dist x y out table).
Proof.
  unfold int_dist. generalize (seq 0 (length x)) as ms. intros ms. revert out.
  induction ms as [|m ms IH]; intros out Hout; cbn [fold_left]; [exact Hout|].
  apply IH. generalize (seq 0 (length y)) as ns. intros ns. revert out Hout.
  induction ns as [|n ns IHn]; intros out Hout; cbn [fold_left]; [exact Hout|].
  apply IHn, has_shape_set2, Hout.
Qed.

Lemma dtw_total rows cols (distance_matrix : matrix) (gully : Q) (penalty : Z) :
  has_shape rows cols distance_matrix -> (1 <= rows)%nat -> (1 <= cols)%nat ->
  (0 <= gully)%Q -> (gully < 1)%Q ->
  exists score, dtw distance_matrix gully penalty = Some score.
Proof.
  intros HD Hrows Hcols H0 H1. unfold dtw.
  rewrite (has_shape_shape0 _ _ _ HD), (has_shape_shape1 _ _ _ HD Hrows).
  destruct (dtw_core_shape rows cols penalty distance_matrix (np_zeros rows cols))
    as [HD' HP']; [exact HD|apply has_shape_replicate|].
  destruct (dtw_core distance_matrix penalty (np_zeros rows cols)) as [D P].
  cbn [fst snd] in *.
  destruct (dtw_endpoint_chosen rows cols D gully HD' Hrows Hcols H0 H1)
    as ([i j] & Hend & _ & Hi & Hj).
  cbn [fst snd] in *. rewrite Hend. cbn [mbind option_bind].
  rewrite (getitem2_nat rows cols) by assumption. cbn [mbind option_bind].
  rewrite (getitem2_nat rows cols) by assumption. eexists. reflexivity.
Qed.

Lemma match_candidate_total (query : list Z) (sequences : list (list Z))
    (u l : list Z) (gully : Q) (penalty : Z) (st : match_state) (n : nat) :
  query <> [] -> (0 <= gully)%Q -> (gully < 1)%Q -> (n < length sequences)%nat ->
  exists st', match_candidate query sequences u l gully penalty (Some st) n = Some st'.
Proof.
  intros Hquery H0 H1 Hn. destruct st as [[best matches] scores].
  unfold match_candidate. cbn [mbind option_bind].
  destruct (sequences !! n) as [candidate|] eqn:Hcandidate;
    [|apply lookup_ge_None_1 in Hcandidate; lia].
  cbn [mbind option_bind].
  destruct (float_lt (lb_keogh u l candidate bits_set) best) eqn:Hbound;
    [|eexists; reflexivity].
  assert (Hnonempty : candidate <> []).
  { intros ->. rewrite lb_keogh_empty_candidate in Hbound. discriminate. }
  destruct (dtw_total (length query) (length candidate)
              (int_dist query candidate
                 (np_empty (length query) (length candidate)) bits_set)
              gully penalty) as [score Hscore]; try assumption.
  - apply int_dist_shape; [exact []|]. apply has_shape_replicate.
  - destruct query; [congruence|cbn; lia].
  - destruct candidate; [congruence|cbn; lia].
  - rewrite Hscore. cbn [mbind option_bind]. eexists. reflexivity.
Qed.

Lemma match_fold_total (query : list Z) (sequences : list (list Z))
    (u l : list Z) (gully : Q) (penalty : Z) (ns : list nat) (st : match_state) :
  query <> [] -> (0 <= gully)%Q -> (gully < 1)%Q ->
  Forall (fun n => (n < length sequences)%nat) ns ->
  exists st',
    fold_left (match_candidate query sequences u l gully penalty) ns (Some st) = Some st'.
Proof.
  intros Hquery H0 H1 Hns. revert st.
  induction Hns as [|n ns Hn Hns IH]; intros st; cbn [fold_left].
  - eexists. reflexivity.
  - destruct (match_candidate_total query sequences u l gully penalty st n)
      as [st' ->]; try assumption.
    apply IH.
Qed.

(** C9 (as amended): the matcher checks nothing at its entry.  For a
    non-empty query, a radius of at least one, a gully in [0, 1) and a
    candidate for every entry of [lengths], it returns a result whatever the
    order of [lengths], the value of the length tolerance and the sizes of
    the candidates (an empty candidate is passed over, a candidate longer or
    shorter than the query is trimmed by the bound); the errors it can raise
    come from the routines it calls. *)
Theorem match_one_sequence_total (query : list Z) (query_length : Q)
    (sequences : list (list Z)) (lengths : list Z) (length_tolerance : Q)
    (radius : Z) (gully : Q) (penalty : Z) :
  query <> [] -> 1 <= radius -> (0 <= gully)%Q -> (gully < 1)%Q ->
  (length lengths <= length sequences)%nat ->
  exists matches scores,
    match_one_sequence query query_length sequences lengths length_tolerance
                       radius gully penalty = Some (matches, scores).
Proof.
  intros Hquery Hradius H0 H1 Hlen. unfold match_one_sequence.
  destruct (keogh_envelopes_length query radius Hradius) as (u & l & -> & _).
  cbn [mbind option_bind].
  set (start := searchsorted lengths _ Left).
  set (end_ := searchsorted lengths _ Right).
  destruct (match_fold_total query sequences u l gully penalty
              (seq start (end_ - start)) (PInf, [], []))
    as [[[best ms] ss] ->]; try assumption.
  - apply Forall_forall. intros n Hn. apply list_elem_of_In, in_seq in Hn.
    pose proof (searchsorted_le_length lengths
                  (upper_length length_tolerance query_length) Right).
    fold end_ in H. lia.
  - cbn [mbind option_bind]. eexists _, _. reflexivity.
Qed.

Lemma match_one_sequence_total_witness :
  exists matches scores,
    match_one_sequence [1; 2; 3] 3
      [[]; [1; 3]; [1; 2; 3]; [1; 2; 3; 4]; [0; 1; 2; 3; 4; 5; 6]]
      [3; 1; 2; 5; 4] 5 1 (1 # 2) 1 = Some (matches, scores).
Proof.
  apply (match_one_sequence_total [1; 2; 3] 3
           [[]; [1; 3]; [1; 2; 3]; [1; 2; 3; 4]; [0; 1; 2; 3; 4; 5; 6]]
           [3; 1; 2; 5; 4] 5 1 (1 # 2) 1).
  - discriminate.
  - lia.
  - discriminate.
  - reflexivity.
  - cbn. lia.
Defined.

(** C9, the claim as stated: a list of lengths that is not ascending, a
    length tolerance of 5, a negative gully, an empty candidate and candidates
    whose sizes are not those announced in [lengths] raise no error: the
    matcher returns two matches. *)
Lemma match_accepts_violations :
  is_ascending [3; 1; 2; 5; 4] = false
  /\ ~ ascending [3; 1; 2; 5; 4]
  /\ match_one_sequence [1; 2; 3] 3
       [[]; [1; 3]; [1; 2; 3]; [1; 2; 3; 4]; [0; 1; 2; 3; 4; 5; 6]]
       [3; 1; 2; 5; 4] 5 1 (-1 # 2) 1
     = Some ([2; 1]%nat, [Fin (0 # 2); Fin 2]).
Proof.
  split; [reflexivity|]. split.
  - intros Hasc. specialize (Hasc 0%nat 1%nat 3 1 eq_refl eq_refl). lia.
  - unfold match_one_sequence, match_candidate.
    rewrite bits_set_popcount_table. vm_compute. reflexivity.
Qed.

(** A radius below one is refused by the filters, after the two searches. *)
Lemma match_refuses_radius query query_length sequences lengths
    length_tolerance radius gully penalty :
  radius < 1 ->
  match_one_sequence query query_length sequences lengths length_tolerance
                     radius gully penalty = None.
Proof.
  intros Hradius. unfold match_one_sequence, keogh_envelopes, maximum_filter1d,
    rank_filter1d.
  replace (radius <? 1) with true by (symmetry; apply Z.ltb_lt; lia).
  reflexivity.
Qed.

(** ** The penalty and the cost at the endpoint *)

Lemma get2_set2_wide (D : matrix) i j v i' j' :
  get2 (set2_wide D i j v) i' j'
  = if decide (i = i' /\ j = j' /\ (i < length D)%nat /\ (j < length (D !!! i))%nat)
    then v else get2 D i' j'.
Proof.
  unfold get2, set2_wide. rewrite list_lookup_total_insert.
  destruct (decide (i = i' /\ (i < length D)%nat)) as [[-> Hi]|Hn].
  - rewrite list_lookup_total_insert.
    destruct (decide (j = j' /\ (j < length (D !!! i'))%nat)) as [Hj|Hj].
    + rewrite decide_True by tauto. reflexivity.
    + rewrite decide_False by tauto. reflexivity.
  - rewrite decide_False by tauto. reflexivity.
Qed.

Lemma set2_wide_out_of_range (D : matrix) i j v :
  ~ ((i < length D)%nat /\ (j < length (D !!! i))%nat) -> set2_wide D i j v = D.
Proof.
  intros Hout. unfold set2_wide.
  destruct (decide (i < length D)%nat) as [Hi|Hi].
  - rewrite (list_insert_ge (D !!! i)) by lia.
    apply list_insert_id, list_lookup_lookup_total_lt, Hi.
  - apply list_insert_ge. lia.
Qed.

Lemma set2_as_wide (D : matrix) i j v : set2 D i j v = set2_wide D i j (u16 v).
Proof. reflexivity. Qed.

Lemma has_shape_set2_wide rows cols (D : matrix) i j v :
  has_shape rows cols D -> has_shape rows cols (set2_wide D i j v).
Proof.
  intros HD.
  destruct (decide ((i < length D)%nat /\ (j < length (D !!! i))%nat)) as [Hin|Hout].
  - destruct HD as [Hlen Hrows]. split; [unfold set2_wide; rewrite length_insert; exact Hlen|].
    unfold set2_wide. apply Forall_insert; [exact Hrows|]. rewrite length_insert.
    rewrite Forall_lookup in Hrows. apply (Hrows i).
    apply list_lookup_lookup_total_lt. tauto.
  - rewrite set2_wide_out_of_range by exact Hout. exact HD.
Qed.

(** In unbounded integers one guard of [dtw_cell] always holds, and the cost
    it adds is the least of the three. *)
Lemma dtw_cell_cost pen i j (D P : matrix) :
  (dtw_cell pen i j (D, P)).1
  = set2 D (i + 1) (j + 1)
      (get2 D (i + 1) (j + 1)
       + Z.min (get2 D i j) (Z.min (get2 D i (j + 1)) (get2 D (i + 1) j) + pen)).
Proof.
  unfold dtw_cell.
  destruct (Z.leb_spec (get2 D i j) (get2 D i (j + 1) + pen));
    destruct (Z.leb_spec (get2 D i j) (get2 D (i + 1) j + pen));
    destruct (Z.leb_spec (get2 D i (j + 1)) (get2 D (i + 1) j));
    destruct (Z.leb_spec (get2 D i (j + 1) + pen) (get2 D i j));
    destruct (Z.leb_spec (get2 D (i + 1) j) (get2 D i (j + 1)));
    destruct (Z.leb_spec (get2 D (i + 1) j + pen) (get2 D i j));
    cbn [andb fst]; try (exfalso; lia); f_equal; lia.
Qed.

Lemma lookup_total_out_of_range (row : list Z) (j : nat) :
  (length row <= j)%nat -> row !!! j = 1.
Proof.
  intros Hj. rewrite list_lookup_total_alt, lookup_ge_None_2 by exact Hj.
  reflexivity.
Qed.

Lemma fits_u16_cells (D : matrix) : fits_u16 D = true -> cells_in 0 65536 D.
Proof.
  intros Hfits i j. unfold get2.
  destruct (decide (j < length (D !!! i))%nat) as [Hj|Hj];
    [|rewrite lookup_total_out_of_range by lia; lia].
  destruct (decide (i < length D)%nat) as [Hi|Hi].
  - unfold fits_u16 in Hfits. rewrite forallb_forall in Hfits.
    specialize (Hfits (D !!! i)). rewrite forallb_forall in Hfits.
    specialize (Hfits ltac:(apply list_elem_of_In, list_elem_of_lookup_2 with i,
                              list_lookup_lookup_total_lt, Hi) ((D !!! i) !!! j)).
    specialize (Hfits ltac:(apply list_elem_of_In, list_elem_of_lookup_2 with j,
                              list_lookup_lookup_total_lt, Hj)).
    apply andb_prop in Hfits as [H0 H1].
    apply Z.leb_le in H0. apply Z.ltb_lt in H1. lia.
  - rewrite (list_lookup_total_alt D), lookup_ge_None_2 in Hj by lia.
    cbn in Hj. lia.
Qed.

Section relaxation.
Variables (rows cols : nat).

Lemma relax_cell_wide_shape pen (D : matrix) c :
  has_shape rows cols D -> has_shape rows cols (relax_cell_wide pen D c).
Proof. apply has_shape_set2_wide. Qed.

Lemma relax_cells_wide_shape pen cells (D : matrix) :
  has_shape rows cols D -> has_shape rows cols (fold_left (relax_cell_wide pen) cells D).
Proof.
  revert D. induction cells as [|c cells IH]; intros D HD; [exact HD|].
  cbn [fold_left]. apply IH, relax_cell_wide_shape, HD.
Qed.

(** A step never lowers a cell of a matrix without negative cells. *)
Lemma relax_cell_wide_grows pen (D : matrix) c :
  0 <= pen -> (forall i j, 0 <= get2 D i j) ->
  cells_le D (relax_cell_wide pen D c)
  /\ forall i j, 0 <= get2 (relax_cell_wide pen D c) i j.
Proof.
  intros Hpen Hnonneg. unfold relax_cell_wide.
  pose proof (Hnonneg c.1 c.2). pose proof (Hnonneg c.1 (c.2 + 1)%nat).
  pose proof (Hnonneg (c.1 + 1)%nat c.2).
  split; intros i j; pose proof (Hnonneg i j); rewrite get2_set2_wide;
    case_decide as Hc; try (destruct Hc as (<- & <- & _)); lia.
Qed.

Lemma relax_cells_wide_grow pen cells (D : matrix) :
  0 <= pen -> (forall i j, 0 <= get2 D i j) ->
  cells_le D (fold_left (relax_cell_wide pen) cells D).
Proof.
  intros Hpen. revert D. induction cells as [|c cells IH]; intros D Hnonneg i j.
  - cbn [fold_left]. lia.
  - cbn [fold_left].
    destruct (relax_cell_wide_grows pen D c Hpen Hnonneg)
      as [Hle Hnonneg'].
    specialize (IH _ Hnonneg' i j). specialize (Hle i j). lia.
Qed.

(** Without overflow the costs of [dtw_core] are the unbounded ones. *)
Lemma dtw_cells_cost pen cells (D P : matrix) :
  0 <= pen -> (forall i j, 0 <= get2 D i j) ->
  (forall i j, get2 (fold_left (relax_cell_wide pen) cells D) i j < 65536) ->
  (fold_left (fun st c => dtw_cell pen c.1 c.2 st) cells (D, P)).1
  = fold_left (relax_cell_wide pen) cells D.
Proof.
  intros Hpen. revert D P.
  induction cells as [|c cells IH]; intros D P Hnonneg Hfits; [reflexivity|].
  cbn [fold_left] in *.
  destruct (relax_cell_wide_grows pen D c Hpen Hnonneg)
    as [_ Hnonneg'].
  assert (Hstep : (dtw_cell pen c.1 c.2 (D, P)).1 = relax_cell_wide pen D c).
  { rewrite dtw_cell_cost, set2_as_wide. unfold relax_cell_wide.
    set (v := get2 D (c.1 + 1) (c.2 + 1) + _).
    destruct (decide ((c.1 + 1 < length D)%nat
                      /\ (c.2 + 1 < length (D !!! (c.1 + 1)%nat))%nat)) as [Hin|Hout].
    - f_equal. apply Z.mod_small.
      pose proof (relax_cells_wide_grow pen cells _ Hpen Hnonneg'
                    (c.1 + 1)%nat (c.2 + 1)%nat) as Hgrow.
      specialize (Hfits (c.1 + 1)%nat (c.2 + 1)%nat).
      specialize (Hnonneg' (c.1 + 1)%nat (c.2 + 1)%nat).
      assert (Hv : get2 (relax_cell_wide pen D c) (c.1 + 1) (c.2 + 1) = v).
      { unfold relax_cell_wide. rewrite get2_set2_wide, decide_True by tauto.
        reflexivity. }
      rewrite Hv in Hgrow, Hnonneg'. lia.
    - rewrite !set2_wide_out_of_range by exact Hout. reflexivity. }
  destruct (dtw_cell pen c.1 c.2 (D, P)) as [D' P'] eqn:Hcell.
  cbn [fst] in Hstep. subst D'. apply IH; assumption.
Qed.

(** A larger penalty on a larger matrix gives larger costs. *)
Lemma relax_cell_wide_monotone p1 p2 (A B : matrix) c :
  has_shape rows cols A -> has_shape rows cols B ->
  p1 <= p2 -> cells_le A B ->
  cells_le (relax_cell_wide p1 A c) (relax_cell_wide p2 B c).
Proof.
  intros HA HB Hp Hle i j. unfold relax_cell_wide.
  pose proof (Hle c.1 c.2). pose proof (Hle c.1 (c.2 + 1)%nat).
  pose proof (Hle (c.1 + 1)%nat c.2). pose proof (Hle (c.1 + 1)%nat (c.2 + 1)%nat).
  specialize (Hle i j).
  rewrite !get2_set2_wide.
  assert (Hsame : ((c.1 + 1 < length A)%nat /\ (c.2 + 1 < length (A !!! (c.1 + 1)%nat))%nat)
                  <-> ((c.1 + 1 < length B)%nat
                       /\ (c.2 + 1 < length (B !!! (c.1 + 1)%nat))%nat)).
  { pose proof (proj1 HA) as HlenA. pose proof (proj1 HB) as HlenB.
    split; intros [Hi Hj]; (split; [lia|]).
    - rewrite (has_shape_row rows cols B) by (assumption || lia).
      rewrite (has_shape_row rows cols A) in Hj by (assumption || lia). exact Hj.
    - rewrite (has_shape_row rows cols A) by (assumption || lia).
      rewrite (has_shape_row rows cols B) in Hj by (assumption || lia). exact Hj. }
  repeat case_decide; try lia; exfalso; tauto.
Qed.

Lemma relax_cells_wide_monotone p1 p2 cells (A B : matrix) :
  has_shape rows cols A -> has_shape rows cols B ->
  p1 <= p2 -> cells_le A B ->
  cells_le (fold_left (relax_cell_wide p1) cells A)
           (fold_left (relax_cell_wide p2) cells B).
Proof.
  intros HA HB Hp. revert A B HA HB.
  induction cells as [|c cells IH]; intros A B HA HB Hle; [exact Hle|].
  cbn [fold_left]. apply IH.
  - apply relax_cell_wide_shape, HA.
  - apply relax_cell_wide_shape, HB.
  - apply relax_cell_wide_monotone; assumption.
Qed.
End relaxation.

Lemma dtw_core_cost (D P : matrix) (pen : Z) :
  0 <= pen -> fits_u16 D = true -> fits_u16 (relax_wide D pen) = true ->
  (dtw_core D pen P).1 = relax_wide D pen.
Proof.
  intros Hpen HD Hwide. rewrite dtw_core_row_major. unfold relax_wide in *.
  apply dtw_cells_cost; [exact Hpen| |].
  - intros i j. apply (fits_u16_cells D HD i j).
  - intros i j. apply (fits_u16_cells _ Hwide i j).
Qed.

Lemma dtw_endpoint_cost rows cols (D : matrix) (gully : Q) :
  has_shape rows cols D -> (1 <= rows)%nat -> (1 <= cols)%nat ->
  (0 <= gully)%Q -> (gully < 1)%Q ->
  exists i j,
    first_min_from
      (Z.to_nat (Qfloor (gully * inject_Z (Z.min (Z.of_nat rows) (Z.of_nat cols)))))
      (last_column D) i
    /\ first_min_from
         (Z.to_nat (Qfloor (gully * inject_Z (Z.min (Z.of_nat rows) (Z.of_nat cols)))))
         (last_row D) j
    /\ ('(i', j') ← dtw_endpoint D gully; getitem2 D i' j')
       = Some (Z.min (last_column D !!! i) (last_row D !!! j)).
Proof.
  intros HD Hrows Hcols H0 H1.
  destruct (dtw_endpoint_chosen rows cols D gully HD Hrows Hcols H0 H1)
    as ([ei ej] & Hend & (i & j & Hi & Hj & Hcase) & Hei & Hej).
  cbn [fst snd] in *. exists i, j. split; [exact Hi|]. split; [exact Hj|].
  rewrite Hend. cbn [mbind option_bind fst snd].
  rewrite (getitem2_nat rows cols) by assumption. f_equal.
  rewrite (has_shape_shape0 rows cols), (has_shape_shape1 rows cols) in Hcase
    by assumption.
  destruct Hcase as [[Hlt Heq]|[Hle Heq]]; injection Heq as -> ->.
  - rewrite <- (last_column_lookup rows cols) by assumption.
    symmetry. apply Z.min_l, Z.lt_le_incl, Hlt.
  - unfold last_row in *. unfold get2.
    pose proof (proj1 HD) as Hlen. rewrite Hlen in *.
    symmetry. apply Z.min_r, Hle.
Qed.

Lemma last_column_min_le rows cols (A B : matrix) offset iA iB :
  has_shape rows cols A -> has_shape rows cols B -> cells_le A B ->
  first_min_from offset (last_column A) iA ->
  first_min_from offset (last_column B) iB ->
  last_column A !!! iA <= last_column B !!! iB.
Proof.
  intros HA HB Hle (_ & HminA & _) (HrangeB & _ & _).
  rewrite last_column_length in HrangeB.
  pose proof (proj1 HA). pose proof (proj1 HB).
  specialize (HminA iB ltac:(rewrite last_column_length; lia)).
  rewrite (last_column_lookup rows cols B) by (assumption || lia).
  rewrite (last_column_lookup rows cols A iB) in HminA by (assumption || lia).
  specialize (Hle iB (cols - 1)%nat). lia.
Qed.

Lemma last_row_min_le rows cols (A B : matrix) offset jA jB :
  (1 <= rows)%nat ->
  has_shape rows cols A -> has_shape rows cols B -> cells_le A B ->
  first_min_from offset (last_row A) jA ->
  first_min_from offset (last_row B) jB ->
  last_row A !!! jA <= last_row B !!! jB.
Proof.
  intros Hrows HA HB Hle (_ & HminA & _) (HrangeB & _ & _).
  pose proof (proj1 HA) as HrA. pose proof (proj1 HB) as HrB.
  assert (HlenA : length (last_row A) = length (last_row B)).
  { unfold last_row.
    rewrite (has_shape_row rows cols A), (has_shape_row rows cols B)
      by (assumption || lia). reflexivity. }
  specialize (HminA jB ltac:(lia)).
  specialize (Hle (rows - 1)%nat jB). unfold get2 in Hle. unfold last_row in *.
  rewrite HrA, HrB in *. lia.
Qed.

(** C7 (as amended): for a fixed matrix of [uint16] distances and a fixed
    gully in [0, 1), the cost at the endpoint that [dtw] selects, which is the
    numerator of the score, does not decrease when the penalty increases,
    as long as the cumulative costs at the larger penalty stay within
    [uint16]. *)
Theorem dtw_cost_monotone rows cols (distance_matrix : matrix) (gully : Q)
    (p1 p2 : Z) :
  has_shape rows cols distance_matrix -> (1 <= rows)%nat -> (1 <= cols)%nat ->
  fits_u16 distance_matrix = true ->
  (0 <= gully)%Q -> (gully < 1)%Q ->
  0 <= p1 <= p2 ->
  fits_u16 (relax_wide distance_matrix p2) = true ->
  exists c1 c2,
    dtw_cost distance_matrix gully p1 = Some c1
    /\ dtw_cost distance_matrix gully p2 = Some c2
    /\ c1 <= c2.
Proof.
  intros HD Hrows Hcols Hfits H0 H1 Hp Hwide2.
  pose proof (fits_u16_cells _ Hfits) as Hcells.
  pose proof (fits_u16_cells _ Hwide2) as Hcells2.
  assert (Hle : cells_le (relax_wide distance_matrix p1) (relax_wide distance_matrix p2)).
  { unfold relax_wide. apply (relax_cells_wide_monotone rows cols);
      try assumption; [lia|]. intros i j. lia. }
  assert (Hshape : forall p, has_shape rows cols (relax_wide distance_matrix p)).
  { intros p. unfold relax_wide. apply relax_cells_wide_shape, HD. }
  assert (Hcost : forall p, 0 <= p -> cells_in 0 65536 (relax_wide distance_matrix p) ->
            forall P, (dtw_core distance_matrix p P).1 = relax_wide distance_matrix p).
  { intros p Hp0 Hin P. rewrite dtw_core_row_major. unfold relax_wide in *.
    apply dtw_cells_cost; [exact Hp0| |]; intros i j.
    - apply (Hcells i j).
    - apply (Hin i j). }
  assert (Hcells1 : cells_in 0 65536 (relax_wide distance_matrix p1)).
  { intros i j. split; [|specialize (Hle i j); specialize (Hcells2 i j); lia].
    unfold relax_wide.
    pose proof (relax_cells_wide_grow p1
                  (row_major (shape0 distance_matrix) (shape1 distance_matrix))
                  distance_matrix ltac:(lia) (fun i j => proj1 (Hcells i j)) i j).
    specialize (Hcells i j). lia. }
  destruct (dtw_endpoint_cost rows cols _ gully (Hshape p1) Hrows Hcols H0 H1)
    as (i1 & j1 & Hi1 & Hj1 & Hc1).
  destruct (dtw_endpoint_cost rows cols _ gully (Hshape p2) Hrows Hcols H0 H1)
    as (i2 & j2 & Hi2 & Hj2 & Hc2).
  eexists _, _. split; [|split].
  - unfold dtw_cost.
    specialize (Hcost p1 ltac:(lia) Hcells1
                  (np_zeros (shape0 distance_matrix) (shape1 distance_matrix))).
    destruct (dtw_core distance_matrix p1 _) as [D P]. cbn [fst] in Hcost. subst D.
    exact Hc1.
  - unfold dtw_cost.
    specialize (Hcost p2 ltac:(lia) Hcells2
                  (np_zeros (shape0 distance_matrix) (shape1 distance_matrix))).
    destruct (dtw_core distance_matrix p2 _) as [D P]. cbn [fst] in Hcost. subst D.
    exact Hc2.
  - pose proof (last_column_min_le rows cols _ _ _ _ _ (Hshape p1) (Hshape p2) Hle Hi1 Hi2).
    pose proof (last_row_min_le rows cols _ _ _ _ _ Hrows (Hshape p1) (Hshape p2) Hle Hj1 Hj2).
    lia.
Qed.

Lemma dtw_cost_monotone_witness :
  exists c1 c2,
    dtw_cost [[0; 0; 0]; [1; 1; 1]; [0; 1; 0]] (1 # 2) 0 = Some c1
    /\ dtw_cost [[0; 0; 0]; [1; 1; 1]; [0; 1; 0]] (1 # 2) 1 = Some c2
    /\ c1 <= c2.
Proof.
  apply (dtw_cost_monotone 3 3 [[0; 0; 0]; [1; 1; 1]; [0; 1; 0]] (1 # 2) 0 1).
  - split; [reflexivity|]. repeat constructor.
  - lia.
  - lia.
  - reflexivity.
  - discriminate.
  - reflexivity.
  - lia.
  - reflexivity.
Defined.

(** C7, the claim as stated: on this matrix, at gully 1/2, the score is 1/1
    with penalty 0 and 1/2 with penalty 1; the cost at the endpoint is 1 in
    both runs, the path to the endpoint of the second is longer. *)
Lemma dtw_score_decreases_with_penalty :
  dtw [[0; 0; 0]; [1; 1; 1]; [0; 1; 0]] (1 # 2) 0 = Some (Fin (1 # 1))
  /\ dtw [[0; 0; 0]; [1; 1; 1]; [0; 1; 0]] (1 # 2) 1 = Some (Fin (1 # 2))
  /\ float_le (Fin (1 # 1)) (Fin (1 # 2)) = false.
Proof. repeat split; vm_compute; reflexivity. Qed.

(** The score of [dtw] is the cost of [dtw_cost] over the path length. *)
Lemma dtw_score_cost rows cols (distance_matrix : matrix) (gully : Q) (penalty : Z) :
  has_shape rows cols distance_matrix -> (1 <= rows)%nat -> (1 <= cols)%nat ->
  (0 <= gully)%Q -> (gully < 1)%Q ->
  exists cost steps,
    dtw_cost distance_matrix gully penalty = Some cost
    /\ dtw distance_matrix gully penalty = Some (true_div cost steps).
Proof.
  intros HD Hrows Hcols H0 H1. unfold dtw, dtw_cost.
  rewrite (has_shape_shape0 _ _ _ HD), (has_shape_shape1 _ _ _ HD Hrows).
  destruct (dtw_core_shape rows cols penalty distance_matrix (np_zeros rows cols))
    as [HD' HP']; [exact HD|apply has_shape_replicate|].
  destruct (dtw_core distance_matrix penalty (np_zeros rows cols)) as [D P].
  cbn [fst snd] in *.
  destruct (dtw_endpoint_chosen rows cols D gully HD' Hrows Hcols H0 H1)
    as ([i j] & Hend & _ & Hi & Hj).
  cbn [fst snd] in *. rewrite Hend. cbn [mbind option_bind].
  rewrite !(getitem2_nat rows cols) by assumption. cbn [mbind option_bind].
  eexists _, _. split; reflexivity.
Qed.

(** * Further properties of the code *)

(** ** The table, the conversions and the bit distance *)

Lemma popcount_bit_sum (k : nat) (v : Z) :
  0 <= v < 2 ^ Z.of_nat k ->
  popcount v
  = sum_list (map (fun i => Z.b2z (Z.testbit v (Z.of_nat i))) (seq 0 k)).
Proof.
  revert v. induction k as [|k IH]; intros v Hv.
  - cbn in Hv. replace v with 0 by lia. reflexivity.
  - cbn [seq map]. rewrite <- seq_shift, map_map.
    unfold sum_list in *. cbn [fold_right].
    rewrite (popcount_step v) by lia. rewrite land_1_mod, <- Z.bit0_mod.
    f_equal. rewrite (IH (v / 2)).
    + f_equal. apply map_ext. intros i.
      rewrite Z.div2_bits, Nat2Z.inj_succ by lia. reflexivity.
    + rewrite Nat2Z.inj_succ, Z.pow_succ_r in Hv by lia.
      split; [apply Z.div_pos; [apply Hv|lia]
             |apply Z.div_lt_upper_bound; [lia|apply Hv]].
Qed.

Lemma popcount_at_most (k : nat) (v : Z) :
  0 <= v < 2 ^ Z.of_nat k -> 0 <= popcount v <= Z.of_nat k.
Proof.
  intros Hv. rewrite (popcount_bit_sum k v Hv).
  assert (Hsum : forall l : list nat,
             0 <= sum_list (map (fun i => Z.b2z (Z.testbit v (Z.of_nat i))) l)
             <= Z.of_nat (length l)).
  { unfold sum_list. induction l as [|i l IH]; cbn [map fold_right length]; [lia|].
    destruct (Z.testbit v (Z.of_nat i)); cbn [Z.b2z]; lia. }
  specialize (Hsum (seq 0 k)). rewrite length_seq in Hsum. exact Hsum.
Qed.

(** X1: the table built at import time has [2^16] entries, and the entry of
    every 16-bit value is the number of ones among its 16 bits. *)
Theorem bits_set_counts_ones (v : Z) :
  in_u16 v ->
  length bits_set = (2 ^ N_BITS)%nat
  /\ bits_set !!! Z.to_nat v
     = sum_list (map (fun i => Z.b2z (Z.testbit v (Z.of_nat i))) (seq 0 N_BITS))
  /\ 0 <= bits_set !!! Z.to_nat v <= 16.
Proof.
  intros Hv. split; [|split].
  - rewrite bits_set_popcount_table. apply popcount_table_length.
  - rewrite bits_set_lookup by exact Hv. apply popcount_bit_sum. exact Hv.
  - rewrite bits_set_lookup by exact Hv. apply (popcount_at_most 16 v Hv).
Qed.

Lemma bits_set_counts_ones_witness :
  length bits_set = (2 ^ N_BITS)%nat
  /\ bits_set !!! Z.to_nat 40000
     = sum_list (map (fun i => Z.b2z (Z.testbit 40000 (Z.of_nat i))) (seq 0 N_BITS))
  /\ 0 <= bits_set !!! Z.to_nat 40000 <= 16.
Proof. apply (bits_set_counts_ones 40000). unfold in_u16. lia. Defined.

(** X2: on a sequence that is not empty, converting to bit vectors and back
    keeps of every integer its 16 low bits: it is the identity on 16-bit
    values and reduces any other integer modulo [2^16]. *)
Theorem round_trip_low_bits (S : list Z) :
  S <> [] ->
  vectors_to_ints (ints_to_vectors S) = Some (map (fun n => n mod 2 ^ 16) S).
Proof.
  intros Hne. unfold ints_to_vectors.
  set (bits := fun n => map _ (seq 0 N_BITS)).
  assert (Hmatrix : np_array (map bits S) = Array2 (map bits S))
    by (destruct S; [congruence|reflexivity]).
  rewrite Hmatrix. cbn [vectors_to_ints]. f_equal.
  rewrite map_map. apply map_ext. intros n. subst bits. cbn beta.
  apply row_to_int_bits.
Qed.

Lemma round_trip_low_bits_witness :
  vectors_to_ints (ints_to_vectors [5; 65539; -1; 40000])
  = Some (map (fun n => n mod 2 ^ 16) [5; 65539; -1; 40000]).
Proof. apply (round_trip_low_bits [5; 65539; -1; 40000]). discriminate. Defined.

Lemma fold_left_invariant {S A} (f : S -> A -> S) (I : S -> Prop) (l : list A) (s : S) :
  (forall s a, I s -> I (f s a)) -> I s -> I (fold_left f l s).
Proof.
  intros Hstep. revert s. induction l as [|a l IH]; intros s Hs; [exact Hs|].
  cbn [fold_left]. apply IH, Hstep, Hs.
Qed.

Lemma fold_left_reaches {S A} (f : S -> A -> S) (I P : S -> Prop) (t : A)
    (l : list A) (s : S) :
  (forall s a, I s -> I (f s a)) ->
  (forall s a, I s -> P s -> P (f s a)) ->
  (forall s, I s -> P (f s t)) ->
  I s -> In t l -> P (fold_left f l s).
Proof.
  intros HI HP Ht. revert s. induction l as [|a l IH]; intros s Hs Hin; [destruct Hin|].
  cbn [fold_left]. destruct Hin as [->|Hin].
  - apply (fold_left_invariant f (fun s => I s /\ P s)).
    + intros s' a [HIs HPs]. split; [apply HI, HIs|apply HP; assumption].
    + split; [apply HI, Hs|apply Ht, Hs].
  - apply IH; [apply HI, Hs|exact Hin].
Qed.

Lemma matrix_eq rows cols (A B : matrix) :
  has_shape rows cols A -> has_shape rows cols B ->
  (forall i j, (i < rows)%nat -> (j < cols)%nat -> get2 A i j = get2 B i j) ->
  A = B.
Proof.
  intros HA HB Hcells. apply list_eq. intros i.
  pose proof (proj1 HA) as HlenA. pose proof (proj1 HB) as HlenB.
  destruct (decide (i < rows)%nat) as [Hi|Hi].
  - rewrite !list_lookup_lookup_total_lt by lia. f_equal.
    apply list_eq. intros j.
    pose proof (has_shape_row rows cols A i HA Hi) as HrA.
    pose proof (has_shape_row rows cols B i HB Hi) as HrB.
    destruct (decide (j < cols)%nat) as [Hj|Hj].
    + rewrite !list_lookup_lookup_total_lt by lia. f_equal.
      apply (Hcells i j Hi Hj).
    + rewrite !lookup_ge_None_2 by lia. reflexivity.
  - rewrite !lookup_ge_None_2 by lia. reflexivity.
Qed.

Lemma lxor_in_u16 a b : in_u16 a -> in_u16 b -> in_u16 (Z.lxor a b).
Proof.
  intros [Ha0 Ha1] [Hb0 Hb1].
  assert (Hnonneg : 0 <= Z.lxor a b) by (apply Z.lxor_nonneg; lia).
  split; [exact Hnonneg|].
  destruct (Z.eq_dec (Z.lxor a b) 0) as [->|Hne]; [lia|].
  change 65536 with (2 ^ 16). apply Z.log2_lt_pow2; [lia|].
  pose proof (Z.log2_lxor a b Ha0 Hb0) as Hlog.
  assert (Hla : Z.log2 a < 16).
  { destruct (Z.eq_dec a 0) as [->|]; [reflexivity|]. apply Z.log2_lt_pow2; lia. }
  assert (Hlb : Z.log2 b < 16).
  { destruct (Z.eq_dec b 0) as [->|]; [reflexivity|]. apply Z.log2_lt_pow2; lia. }
  lia.
Qed.

Lemma int_dist_cell (x y : list Z) (out table : list Z) (output : matrix) (i j : nat) :
  has_shape (length x) (length y) output ->
  (i < length x)%nat -> (j < length y)%nat ->
  get2 (int_dist x y output table) i j
  = u16 (table !!! Z.to_nat (Z.lxor (x !!! i) (y !!! j))).
Proof.
  intros Hshape Hi Hj. unfold int_dist.
  set (v := u16 _).
  apply (fold_left_reaches _ (has_shape (length x) (length y))
           (fun o => get2 o i j = v) i).
  - intros o m Ho. apply fold_left_invariant; [|exact Ho].
    intros o' n Ho'. apply has_shape_set2, Ho'.
  - intros o m Ho Hv.
    apply (fold_left_invariant _ (fun o => has_shape (length x) (length y) o
                                           /\ get2 o i j = v));
      [|split; assumption].
    intros o' n [Ho' Hv']. split; [apply has_shape_set2, Ho'|].
    rewrite get2_set2. case_decide as Hc; [|exact Hv'].
    destruct Hc as (-> & -> & _). reflexivity.
  - intros o Ho.
    apply (fold_left_reaches _ (has_shape (length x) (length y))
             (fun o => get2 o i j = v) j).
    + intros o' n Ho'. apply has_shape_set2, Ho'.
    + intros o' n Ho' Hv'. rewrite get2_set2. case_decide as Hc; [|exact Hv'].
      destruct Hc as (_ & -> & _). reflexivity.
    + intros o' Ho'. rewrite get2_set2, decide_True; [reflexivity|].
      repeat split; [destruct Ho'; lia|].
      rewrite (has_shape_row (length x) (length y)) by assumption. exact Hj.
    + exact Ho.
    + apply in_seq. lia.
  - exact Hshape.
  - apply in_seq. lia.
Qed.

Lemma bit_distances_shape (x y : list Z) :
  has_shape (length x) (length y) (bit_distances x y).
Proof.
  unfold bit_distances. split; [apply length_map|].
  apply Forall_forall. intros row Hrow.
  apply list_elem_of_In, in_map_iff in Hrow as (a & <- & _). apply length_map.
Qed.

Lemma bit_distances_cell (x y : list Z) (i j : nat) :
  (i < length x)%nat -> (j < length y)%nat ->
  get2 (bit_distances x y) i j = popcount (Z.lxor (x !!! i) (y !!! j)).
Proof.
  intros Hi Hj. unfold get2, bit_distances.
  rewrite lookup_total_map by exact Hi. rewrite lookup_total_map by exact Hj.
  reflexivity.
Qed.

Lemma Forall_lookup_total_in (x : list Z) (i : nat) :
  Forall in_u16 x -> (i < length x)%nat -> in_u16 (x !!! i).
Proof.
  intros Hx Hi. rewrite Forall_lookup in Hx. apply (Hx i).
  apply list_lookup_lookup_total_lt, Hi.
Qed.

Lemma int_dist_cell_popcount (x y : list Z) (output : matrix) (i j : nat) :
  Forall in_u16 x -> Forall in_u16 y ->
  has_shape (length x) (length y) output ->
  (i < length x)%nat -> (j < length y)%nat ->
  get2 (int_dist x y output bits_set) i j = popcount (Z.lxor (x !!! i) (y !!! j)).
Proof.
  intros Hx Hy Hshape Hi Hj.
  rewrite (int_dist_cell x y [] bits_set) by assumption.
  assert (Hxor : in_u16 (Z.lxor (x !!! i) (y !!! j)))
    by (apply lxor_in_u16; apply Forall_lookup_total_in; assumption).
  rewrite bits_set_lookup by exact Hxor.
  pose proof (popcount_bounds _ (proj1 Hxor)). destruct Hxor.
  apply Z.mod_small. lia.
Qed.

(** X3: whatever the pre-allocated output of the right shape holds,
    [int_dist] overwrites all of it: the cell [(m, n)] of the result is the
    number of bits in which [x[m]] and [y[n]] differ. *)
Theorem int_dist_bit_distances (x y : list Z) (output : matrix) :
  Forall in_u16 x -> Forall in_u16 y ->
  has_shape (length x) (length y) output ->
  int_dist x y output bits_set = bit_distances x y.
Proof.
  intros Hx Hy Hshape. apply (matrix_eq (length x) (length y)).
  - apply int_dist_shape; [exact []|exact Hshape].
  - apply bit_distances_shape.
  - intros i j Hi Hj. rewrite int_dist_cell_popcount by assumption.
    rewrite bit_distances_cell by assumption. reflexivity.
Qed.

Lemma int_dist_bit_distances_witness :
  int_dist [5; 9; 2] [5; 9] [[7; 7]; [7; 7]; [7; 7]] bits_set
  = bit_distances [5; 9; 2] [5; 9].
Proof.
  apply (int_dist_bit_distances [5; 9; 2] [5; 9] [[7; 7]; [7; 7]; [7; 7]]).
  - repeat constructor; unfold in_u16; lia.
  - repeat constructor; unfold in_u16; lia.
  - split; [reflexivity|]. repeat constructor.
Defined.

(** X4: the distance matrix of [y] against [x] is the transpose of the
    distance matrix of [x] against [y]. *)
Theorem int_dist_transpose (x y : list Z) (m n : nat) :
  Forall in_u16 x -> Forall in_u16 y ->
  (m < length x)%nat -> (n < length y)%nat ->
  get2 (int_dist x y (np_empty (length x) (length y)) bits_set) m n
  = get2 (int_dist y x (np_empty (length y) (length x)) bits_set) n m.
Proof.
  intros Hx Hy Hm Hn.
  rewrite !int_dist_cell_popcount by (assumption || apply has_shape_replicate).
  rewrite Z.lxor_comm. reflexivity.
Qed.

Lemma int_dist_transpose_witness :
  get2 (int_dist [5; 9; 2] [5; 9]
          (np_empty (length [5; 9; 2]) (length [5; 9])) bits_set) 2 1
  = get2 (int_dist [5; 9] [5; 9; 2]
            (np_empty (length [5; 9]) (length [5; 9; 2])) bits_set) 1 2.
Proof.
  apply (int_dist_transpose [5; 9; 2] [5; 9] 2 1).
  - repeat constructor; unfold in_u16; lia.
  - repeat constructor; unfold in_u16; lia.
  - cbn. lia.
  - cbn. lia.
Defined.

(** X5: every distance is between 0 and 16, and it is 0 exactly when the two
    symbols are equal. *)
Theorem int_dist_range (x y : list Z) (m n : nat) :
  Forall in_u16 x -> Forall in_u16 y ->
  (m < length x)%nat -> (n < length y)%nat ->
  0 <= get2 (int_dist x y (np_empty (length x) (length y)) bits_set) m n <= 16
  /\ (get2 (int_dist x y (np_empty (length x) (length y)) bits_set) m n = 0
      <-> x !!! m = y !!! n).
Proof.
  intros Hx Hy Hm Hn.
  rewrite int_dist_cell_popcount by (assumption || apply has_shape_replicate).
  assert (Hxor : in_u16 (Z.lxor (x !!! m) (y !!! n)))
    by (apply lxor_in_u16; apply Forall_lookup_total_in; assumption).
  split; [apply (popcount_at_most 16), Hxor|].
  etransitivity; [|apply Z.lxor_eq_0_iff]. destruct Hxor as [H0 _].
  destruct (Z.lxor (x !!! m) (y !!! n)) as [|p|p];
    [split; reflexivity| |lia].
  pose proof (popcount_pos_bounds p). cbn [popcount]. split; [lia|discriminate].
Qed.

Lemma int_dist_range_witness :
  0 <= get2 (int_dist [5; 9; 2] [5; 9]
               (np_empty (length [5; 9; 2]) (length [5; 9])) bits_set) 1 1 <= 16
  /\ (get2 (int_dist [5; 9; 2] [5; 9]
              (np_empty (length [5; 9; 2]) (length [5; 9])) bits_set) 1 1 = 0
      <-> [5; 9; 2] !!! 1%nat = [5; 9] !!! 1%nat).
Proof.
  apply (int_dist_range [5; 9; 2] [5; 9] 1 1).
  - repeat constructor; unfold in_u16; lia.
  - repeat constructor; unfold in_u16; lia.
  - cbn. lia.
  - cbn. lia.
Defined.

(** ** What the relaxation computes *)

Lemma dtw_cell_here rows cols pen i j (D P : matrix) :
  has_shape rows cols D -> has_shape rows cols P ->
  (i + 1 < rows)%nat -> (j + 1 < cols)%nat ->
  get2 (dtw_cell pen i j (D, P)).1 (i + 1) (j + 1)
  = u16 (get2 D (i + 1) (j + 1)
         + Z.min (get2 D i j) (Z.min (get2 D i (j + 1)) (get2 D (i + 1) j) + pen))
  /\ get2 (dtw_cell pen i j (D, P)).2 (i + 1) (j + 1)
     = u16 (get2 P (i + 1) (j + 1)
            + (get2 P (predecessor pen D i j).1 (predecessor pen D i j).2 + 1)).
Proof.
  intros HD HP Hi Hj.
  assert (HinD : (i + 1 < length D)%nat /\ (j + 1 < length (D !!! (i + 1)%nat))%nat).
  { rewrite (has_shape_row rows cols) by assumption. destruct HD. lia. }
  assert (HinP : (i + 1 < length P)%nat /\ (j + 1 < length (P !!! (i + 1)%nat))%nat).
  { rewrite (has_shape_row rows cols) by assumption. destruct HP. lia. }
  unfold dtw_cell, predecessor.
  destruct (Z.leb_spec (get2 D i j) (get2 D i (j + 1) + pen));
    destruct (Z.leb_spec (get2 D i j) (get2 D (i + 1) j + pen));
    destruct (Z.leb_spec (get2 D i (j + 1)) (get2 D (i + 1) j));
    destruct (Z.leb_spec (get2 D i (j + 1) + pen) (get2 D i j));
    destruct (Z.leb_spec (get2 D (i + 1) j) (get2 D i (j + 1)));
    destruct (Z.leb_spec (get2 D (i + 1) j + pen) (get2 D i j));
    cbn [andb fst snd]; try (exfalso; lia);
    rewrite !get2_set2, !decide_True by tauto;
    split; f_equal; lia.
Qed.

Lemma dtw_cell_elsewhere pen i j (D P : matrix) a b :
  (a, b) <> ((i + 1)%nat, (j + 1)%nat) ->
  get2 (dtw_cell pen i j (D, P)).1 a b = get2 D a b
  /\ get2 (dtw_cell pen i j (D, P)).2 a b = get2 P a b.
Proof.
  intros Hne. unfold dtw_cell.
  repeat match goal with
         | |- context [if ?c then _ else _] => destruct c
         end; cbn [fst snd]; rewrite ?get2_set2_ne by congruence; split; reflexivity.
Qed.

Lemma dtw_cells_untouched pen cells (st : matrix * matrix) a b :
  (forall c, In c cells -> ((c.1 + 1)%nat, (c.2 + 1)%nat) <> (a, b)) ->
  get2 (fold_left (fun st c => dtw_cell pen c.1 c.2 st) cells st).1 a b = get2 st.1 a b
  /\ get2 (fold_left (fun st c => dtw_cell pen c.1 c.2 st) cells st).2 a b
     = get2 st.2 a b.
Proof.
  revert st. induction cells as [|c cells IH]; intros [D P] Hcells; [split; reflexivity|].
  cbn [fold_left].
  destruct (IH (dtw_cell pen c.1 c.2 (D, P))) as [HD HP].
  { intros c' Hc'. apply Hcells. right. exact Hc'. }
  rewrite HD, HP. apply dtw_cell_elsewhere.
  intros Heq. apply (Hcells c); [left; reflexivity|]. congruence.
Qed.

Lemma seq_split (n k : nat) :
  (k < n)%nat -> seq 0 n = seq 0 k ++ k :: seq (S k) (n - S k).
Proof.
  intros Hk. remember (n - S k)%nat as m eqn:Hm.
  replace n with (k + S m)%nat by lia. rewrite seq_app. reflexivity.
Qed.

Lemma row_major_split rows cols i j :
  (i + 1 < rows)%nat -> (j + 1 < cols)%nat ->
  exists l1 l2,
    row_major rows cols = l1 ++ (i, j) :: l2
    /\ (forall c, In c l1 -> (c.1 < i)%nat \/ (c.1 = i /\ (c.2 < j)%nat))
    /\ (forall c, In c l2 -> (i < c.1)%nat \/ (c.1 = i /\ (j < c.2)%nat)).
Proof.
  intros Hi Hj. unfold row_major.
  set (f := fun i => map (fun j => (i, j)) (seq 0 (cols - 1))).
  exists (flat_map f (seq 0 i) ++ map (fun j => (i, j)) (seq 0 j)),
         (map (fun j' => (i, j')) (seq (S j) (cols - 1 - S j))
          ++ flat_map f (seq (S i) (rows - 1 - S i))).
  split; [|split].
  - rewrite (seq_split (rows - 1) i) by lia.
    rewrite flat_map_app. cbn [flat_map].
    rewrite <- !app_assoc. f_equal. unfold f at 1.
    rewrite (seq_split (cols - 1) j) at 1 by lia.
    rewrite map_app. cbn [map]. rewrite <- !app_assoc. reflexivity.
  - intros c Hc. apply in_app_or in Hc as [Hc|Hc].
    + apply in_flat_map in Hc as (i' & Hi' & Hc). apply in_seq in Hi'.
      apply in_map_iff in Hc as (j' & <- & _). cbn. lia.
    + apply in_map_iff in Hc as (j' & <- & Hj'). apply in_seq in Hj'. cbn. lia.
  - intros c Hc. apply in_app_or in Hc as [Hc|Hc].
    + apply in_map_iff in Hc as (j' & <- & Hj'). apply in_seq in Hj'. cbn. lia.
    + apply in_flat_map in Hc as (i' & Hi' & Hc). apply in_seq in Hi'.
      apply in_map_iff in Hc as (j' & <- & _). cbn. lia.
Qed.

Lemma predecessor_ext pen (A B : matrix) i j :
  get2 A i j = get2 B i j -> get2 A i (j + 1) = get2 B i (j + 1) ->
  get2 A (i + 1) j = get2 B (i + 1) j ->
  predecessor pen A i j = predecessor pen B i j.
Proof. intros H1 H2 H3. unfold predecessor. rewrite H1, H2, H3. reflexivity. Qed.

Lemma dtw_core_interior rows cols (D0 P0 : matrix) (pen : Z) (i j : nat) :
  has_shape rows cols D0 -> has_shape rows cols P0 ->
  (i + 1 < rows)%nat -> (j + 1 < cols)%nat ->
  let D := (dtw_core D0 pen P0).1 in
  let P := (dtw_core D0 pen P0).2 in
  get2 D (i + 1) (j + 1)
  = u16 (get2 D0 (i + 1) (j + 1)
         + Z.min (get2 D i j) (Z.min (get2 D i (j + 1)) (get2 D (i + 1) j) + pen))
  /\ get2 P (i + 1) (j + 1)
     = u16 (get2 P0 (i + 1) (j + 1)
            + (get2 P (predecessor pen D i j).1 (predecessor pen D i j).2 + 1)).
Proof.
  intros HD HP Hi Hj D P. subst D P. rewrite dtw_core_row_major.
  rewrite (has_shape_shape0 rows cols), (has_shape_shape1 rows cols)
    by (assumption || lia).
  destruct (row_major_split rows cols i j Hi Hj) as (l1 & l2 & -> & Hl1 & Hl2).
  rewrite fold_left_app. cbn [fold_left fst snd].
  set (step := fun st c => dtw_cell pen c.1 c.2 st).
  set (st1 := fold_left step l1 (D0, P0)).
  assert (Hshape1 : has_shape rows cols st1.1 /\ has_shape rows cols st1.2).
  { apply (dtw_cells_shape rows cols pen l1 (D0, P0)); assumption. }
  assert (Hafter : forall a b,
             (a <= i)%nat \/ (a = (i + 1)%nat /\ (b <= j + 1)%nat) ->
             get2 (fold_left step l2 (dtw_cell pen i j st1)).1 a b
             = get2 (dtw_cell pen i j st1).1 a b
             /\ get2 (fold_left step l2 (dtw_cell pen i j st1)).2 a b
                = get2 (dtw_cell pen i j st1).2 a b).
  { intros a b Hab. apply dtw_cells_untouched. intros c Hc Heq.
    specialize (Hl2 c Hc). injection Heq as <- <-. lia. }
  assert (Hbefore : get2 st1.1 (i + 1) (j + 1) = get2 D0 (i + 1) (j + 1)
                    /\ get2 st1.2 (i + 1) (j + 1) = get2 P0 (i + 1) (j + 1)).
  { apply (dtw_cells_untouched pen l1 (D0, P0)). intros c Hc Heq.
    specialize (Hl1 c Hc). injection Heq as Heq1 Heq2. lia. }
  destruct st1 as [D1 P1] eqn:Hst1. cbn [fst snd] in *.
  destruct (dtw_cell_here rows cols pen i j D1 P1) as [HhereD HhereP];
    try tauto; try assumption.
  assert (Hkeep : forall a b, (a, b) <> ((i + 1)%nat, (j + 1)%nat) ->
             (a <= i)%nat \/ (a = (i + 1)%nat /\ (b <= j + 1)%nat) ->
             get2 (fold_left step l2 (dtw_cell pen i j (D1, P1))).1 a b = get2 D1 a b
             /\ get2 (fold_left step l2 (dtw_cell pen i j (D1, P1))).2 a b
                = get2 P1 a b).
  { intros a b Hne Hab. destruct (Hafter a b Hab) as [-> ->].
    apply dtw_cell_elsewhere, Hne. }
  destruct (Hafter (i + 1)%nat (j + 1)%nat) as [HfD HfP]; [lia|].
  destruct (Hkeep i j) as [Hd _]; [intros [=]; lia|lia|].
  destruct (Hkeep i (j + 1)%nat) as [Hh _]; [intros [=]; lia|lia|].
  destruct (Hkeep (i + 1)%nat j) as [Hv _]; [intros [=]; lia|lia|].
  rewrite HfD, HfP, HhereD, HhereP.
  rewrite (predecessor_ext pen
             (fold_left step l2 (dtw_cell pen i j (D1, P1))).1 D1 i j)
    by assumption.
  rewrite Hd, Hh, Hv. destruct Hbefore as [-> ->].
  split; [reflexivity|]. do 3 f_equal.
  unfold predecessor.
  repeat match goal with
         | |- context [if ?c then _ else _] => destruct c
         end; cbn [fst snd]; symmetry; apply Hkeep; try (intros [=]; lia); lia.
Qed.

Lemma dtw_core_first_row_column (D0 P0 : matrix) (pen : Z) (a b : nat) :
  a = 0%nat \/ b = 0%nat ->
  get2 (dtw_core D0 pen P0).1 a b = get2 D0 a b
  /\ get2 (dtw_core D0 pen P0).2 a b = get2 P0 a b.
Proof.
  intros Hab. rewrite dtw_core_row_major.
  apply (dtw_cells_untouched pen _ (D0, P0)).
  intros c _ Heq. injection Heq as Ha Hb. lia.
Qed.

(** X6: what [dtw_core] leaves in its two matrices, cell by cell.  The first
    row and the first column are never written: there the costs stay the raw
    distances and the path lengths stay what they were.  Every other cell
    satisfies the recurrence of dynamic time warping in [uint16] arithmetic,
    in terms of the final cells: its cost is its distance plus the least of
    the cost of the diagonal neighbour and of the penalised costs of the two
    others, and its path length is one more than that of the neighbour
    chosen. *)
Theorem dtw_core_recurrence rows cols (D0 P0 : matrix) (pen : Z) (a b : nat) :
  has_shape rows cols D0 -> has_shape rows cols P0 ->
  (a < rows)%nat -> (b < cols)%nat ->
  let D := (dtw_core D0 pen P0).1 in
  let P := (dtw_core D0 pen P0).2 in
  match a, b with
  | S i, S j =>
      get2 D a b
      = u16 (get2 D0 a b
             + Z.min (get2 D i j) (Z.min (get2 D i b) (get2 D a j) + pen))
      /\ get2 P a b
         = u16 (get2 P0 a b
                + (get2 P (predecessor pen D i j).1 (predecessor pen D i j).2 + 1))
  | _, _ => get2 D a b = get2 D0 a b /\ get2 P a b = get2 P0 a b
  end.
Proof.
  intros HD HP Ha Hb D P. subst D P.
  destruct a as [|i]; [apply dtw_core_first_row_column; left; reflexivity|].
  destruct b as [|j]; [apply dtw_core_first_row_column; right; reflexivity|].
  pose proof (dtw_core_interior rows cols D0 P0 pen i j HD HP) as Hcell.
  rewrite !Nat.add_1_r in Hcell. apply Hcell; lia.
Qed.

Lemma dtw_core_recurrence_witness :
  let D := (dtw_core [[0; 2; 3]; [2; 0; 3]; [3; 3; 0]] 1 (np_zeros 3 3)).1 in
  let P := (dtw_core [[0; 2; 3]; [2; 0; 3]; [3; 3; 0]] 1 (np_zeros 3 3)).2 in
  get2 D 2 2
  = u16 (get2 [[0; 2; 3]; [2; 0; 3]; [3; 3; 0]] 2 2
         + Z.min (get2 D 1 1) (Z.min (get2 D 1 2) (get2 D 2 1) + 1))
  /\ get2 P 2 2
     = u16 (get2 (np_zeros 3 3) 2 2
            + (get2 P (predecessor 1 D 1 1).1 (predecessor 1 D 1 1).2 + 1)).
Proof.
  apply (dtw_core_recurrence 3 3 [[0; 2; 3]; [2; 0; 3]; [3; 3; 0]] (np_zeros 3 3) 1 2 2).
  - split; [reflexivity|]. repeat constructor.
  - apply has_shape_replicate.
  - lia.
  - lia.
Defined.

(** ** Path lengths and the finiteness of the score *)

Lemma np_zeros_cell rows cols a b :
  (a < rows)%nat -> (b < cols)%nat -> get2 (np_zeros rows cols) a b = 0.
Proof.
  intros Ha Hb. unfold get2, np_zeros.
  rewrite (list_lookup_total_correct _ a (replicate cols 0))
    by (apply lookup_replicate_2, Ha).
  apply list_lookup_total_correct, lookup_replicate_2, Hb.
Qed.

Lemma predecessor_cases pen (D : matrix) i j :
  predecessor pen D i j = (i, j)
  \/ predecessor pen D i j = (i, (j + 1)%nat)
  \/ predecessor pen D i j = ((i + 1)%nat, j).
Proof.
  unfold predecessor.
  repeat match goal with
         | |- context [if ?c then _ else _] => destruct c
         end; auto.
Qed.

Lemma path_length_bounds rows cols (D0 : matrix) (pen : Z) (a b : nat) :
  has_shape rows cols D0 -> Z.of_nat (rows + cols) <= 65536 ->
  (a < rows)%nat -> (b < cols)%nat ->
  Z.of_nat (Nat.min a b) <= get2 (dtw_core D0 pen (np_zeros rows cols)).2 a b
  /\ get2 (dtw_core D0 pen (np_zeros rows cols)).2 a b
     <= Z.of_nat (if decide (a = 0 \/ b = 0)%nat then 0 else a + b - 1).
Proof.
  intros HD Hsize. remember (a + b)%nat as n eqn:Hn. revert a b Hn.
  induction n as [n IH] using lt_wf_ind. intros a b Hn Ha Hb.
  destruct (decide (a = 0 \/ b = 0)%nat) as [Hborder|Hinner].
  - destruct (dtw_core_first_row_column D0 (np_zeros rows cols) pen a b Hborder)
      as [_ ->].
    rewrite np_zeros_cell by assumption. lia.
  - destruct a as [|i]; [lia|]. destruct b as [|j]; [lia|].
    destruct (dtw_core_interior rows cols D0 (np_zeros rows cols) pen i j)
      as [_ HP]; try assumption; try lia; [apply has_shape_replicate|].
    rewrite !Nat.add_1_r in HP. rewrite HP. clear HP.
    rewrite np_zeros_cell by assumption.
    set (D := (dtw_core D0 pen (np_zeros rows cols)).1).
    assert (Hpred : forall a' b', (a' + b' < n)%nat -> (a' < rows)%nat -> (b' < cols)%nat ->
              (Nat.min (S i) (S j) <= Nat.min a' b' + 1)%nat ->
              (a' + b' <= S i + S j - 1)%nat ->
              Z.of_nat (Nat.min (S i) (S j))
              <= u16 (0 + (get2 (dtw_core D0 pen (np_zeros rows cols)).2 a' b' + 1))
              <= Z.of_nat (n - 1)).
    { intros a' b' Hlt Ha' Hb' Hmin Hsum.
      destruct (IH (a' + b')%nat Hlt a' b' eq_refl Ha' Hb') as [Hlo Hhi].
      assert (Hub : get2 (dtw_core D0 pen (np_zeros rows cols)).2 a' b'
                    <= Z.of_nat (S i + S j) - 2).
      { destruct (decide (a' = 0 \/ b' = 0)%nat); lia. }
      unfold u16. rewrite Z.mod_small by lia. lia. }
    destruct (predecessor_cases pen D i j) as [-> | [-> | ->]]; cbn [fst snd].
    + apply Hpred; lia.
    + rewrite Nat.add_1_r. apply Hpred; lia.
    + rewrite Nat.add_1_r. apply Hpred; lia.
Qed.

(** X7: [dtw] starts from a path-length matrix of zeros, so after the
    relaxation the path length is 0 on the first row and the first column
    and, on any other cell [(a, b)], between [min(a, b)] and [a + b - 1], as
    long as the two sequences together have at most [2^16] symbols. *)
Theorem dtw_core_path_length rows cols (D0 : matrix) (pen : Z) (a b : nat) :
  has_shape rows cols D0 -> Z.of_nat (rows + cols) <= 65536 ->
  (a < rows)%nat -> (b < cols)%nat ->
  let P := (dtw_core D0 pen (np_zeros rows cols)).2 in
  ((a = 0 \/ b = 0)%nat -> get2 P a b = 0)
  /\ ((1 <= a)%nat -> (1 <= b)%nat ->
      Z.of_nat (Nat.min a b) <= get2 P a b <= Z.of_nat (a + b) - 1).
Proof.
  intros HD Hsize Ha Hb P. subst P.
  destruct (path_length_bounds rows cols D0 pen a b HD Hsize Ha Hb) as [Hlo Hhi].
  split.
  - intros Hborder. rewrite decide_True in Hhi by exact Hborder.
    assert (Nat.min a b = 0%nat) by lia. lia.
  - intros Ha1 Hb1. rewrite decide_False in Hhi by lia. lia.
Qed.

Lemma dtw_core_path_length_witness :
  let P := (dtw_core [[0; 2; 3]; [2; 0; 3]; [3; 3; 0]] 1 (np_zeros 3 3)).2 in
  ((2 = 0 \/ 1 = 0)%nat -> get2 P 2 1 = 0)
  /\ ((1 <= 2)%nat -> (1 <= 1)%nat ->
      Z.of_nat (Nat.min 2 1) <= get2 P 2 1 <= Z.of_nat (2 + 1) - 1).
Proof.
  apply (dtw_core_path_length 3 3 [[0; 2; 3]; [2; 0; 3]; [3; 3; 0]] 1 2 1).
  - split; [reflexivity|]. repeat constructor.
  - cbn. lia.
  - lia.
  - lia.
Defined.

Lemma dtw_score_at_endpoint rows cols (distance_matrix : matrix) (gully : Q)
    (penalty : Z) :
  has_shape rows cols distance_matrix -> (1 <= rows)%nat -> (1 <= cols)%nat ->
  (0 <= gully)%Q -> (gully < 1)%Q ->
  exists e : nat * nat,
    chosen_endpoint (dtw_core distance_matrix penalty (np_zeros rows cols)).1
      (Z.to_nat (Qfloor (gully * inject_Z (Z.min (Z.of_nat rows) (Z.of_nat cols))))) e
    /\ (e.1 < rows)%nat /\ (e.2 < cols)%nat
    /\ dtw distance_matrix gully penalty
       = Some (true_div
                 (get2 (dtw_core distance_matrix penalty (np_zeros rows cols)).1 e.1 e.2)
                 (get2 (dtw_core distance_matrix penalty (np_zeros rows cols)).2 e.1 e.2)).
Proof.
  intros HD Hrows Hcols H0 H1. unfold dtw.
  rewrite (has_shape_shape0 _ _ _ HD), (has_shape_shape1 _ _ _ HD Hrows).
  destruct (dtw_core_shape rows cols penalty distance_matrix (np_zeros rows cols))
    as [HD' HP']; [exact HD|apply has_shape_replicate|].
  destruct (dtw_core distance_matrix penalty (np_zeros rows cols)) as [D P].
  cbn [fst snd] in *.
  destruct (dtw_endpoint_chosen rows cols D gully HD' Hrows Hcols H0 H1)
    as ([i j] & Hend & Hchosen & Hi & Hj).
  cbn [fst snd] in *. exists (i, j). cbn [fst snd].
  split; [exact Hchosen|]. split; [exact Hi|]. split; [exact Hj|].
  rewrite Hend. cbn [mbind option_bind].
  rewrite !(getitem2_nat rows cols) by assumption. reflexivity.
Qed.

(** X8: when one of the two sequences has a single symbol, the traceback can
    only end on the first row or the first column, where the path length is
    0: for every gully in [0, 1) and every penalty the score of [dtw] is
    [nan] or [inf], never a number. *)
Theorem dtw_single_row_or_column rows cols (distance_matrix : matrix) (gully : Q)
    (penalty : Z) :
  has_shape rows cols distance_matrix -> (1 <= rows)%nat -> (1 <= cols)%nat ->
  (rows = 1 \/ cols = 1)%nat ->
  (0 <= gully)%Q -> (gully < 1)%Q ->
  dtw distance_matrix gully penalty = Some NaN
  \/ dtw distance_matrix gully penalty = Some PInf.
Proof.
  intros HD Hrows Hcols Hone H0 H1.
  destruct (dtw_score_at_endpoint rows cols distance_matrix gully penalty
              HD Hrows Hcols H0 H1) as ([i j] & _ & Hi & Hj & ->).
  cbn [fst snd] in *.
  destruct (dtw_core_first_row_column distance_matrix (np_zeros rows cols) penalty i j)
    as [_ ->]; [lia|].
  rewrite np_zeros_cell by assumption. unfold true_div. cbn [Z.eqb].
  destruct (_ =? 0); auto.
Qed.

Lemma dtw_single_row_or_column_witness :
  dtw [[3; 0; 1]] (1 # 2) 1 = Some NaN \/ dtw [[3; 0; 1]] (1 # 2) 1 = Some PInf.
Proof.
  apply (dtw_single_row_or_column 1 3 [[3; 0; 1]] (1 # 2) 1).
  - split; [reflexivity|]. repeat constructor.
  - lia.
  - lia.
  - left. reflexivity.
  - discriminate.
  - reflexivity.
Defined.

(** X9: when the gully makes the offset at least one, that is
    [gully * min(rows, cols) >= 1], the traceback ends off the first row and
    the first column, where the path length is positive: on a matrix of
    [uint16] distances of two sequences with at most [2^16] symbols together,
    the score of [dtw] is a finite number, and it is not negative. *)
Theorem dtw_finite_score rows cols (distance_matrix : matrix) (gully : Q)
    (penalty : Z) :
  has_shape rows cols distance_matrix -> fits_u16 distance_matrix = true ->
  Z.of_nat (rows + cols) <= 65536 ->
  (gully < 1)%Q ->
  (1 <= gully * inject_Z (Z.min (Z.of_nat rows) (Z.of_nat cols)))%Q ->
  exists q, dtw distance_matrix gully penalty = Some (Fin q) /\ (0 <= q)%Q.
Proof.
  intros HD Hfits Hsize H1 Hoff.
  assert (Hmin : 1 <= Z.min (Z.of_nat rows) (Z.of_nat cols)).
  { destruct (Z.eq_dec (Z.min (Z.of_nat rows) (Z.of_nat cols)) 0) as [Hz|Hnz]; [|lia].
    exfalso. rewrite Hz in Hoff. rewrite Qmult_0_r in Hoff.
    revert Hoff. apply Qlt_not_le. reflexivity. }
  assert (H0 : (0 <= gully)%Q).
  { apply Qnot_lt_le. intros Hneg.
    assert (Hm : (0 <= inject_Z (Z.min (Z.of_nat rows) (Z.of_nat cols)))%Q)
      by (change 0%Q with (inject_Z 0); rewrite <- Zle_Qle; lia).
    apply (Qlt_not_le 0 1); [reflexivity|].
    eapply Qle_trans; [exact Hoff|].
    rewrite <- (Qmult_0_l (inject_Z (Z.min (Z.of_nat rows) (Z.of_nat cols)))).
    apply Qmult_le_compat_r; [apply Qlt_le_weak, Hneg|exact Hm]. }
  destruct (gully_offset gully _ H0 H1 Hmin) as [_ Hrange].
  assert (Hfloor : 1 <= Qfloor (gully * inject_Z (Z.min (Z.of_nat rows) (Z.of_nat cols)))).
  { rewrite <- (Qfloor_Z 1). apply Qfloor_resp_le, Hoff. }
  destruct (dtw_score_at_endpoint rows cols distance_matrix gully penalty HD)
    as ([i j] & Hchosen & Hi & Hj & ->); try assumption; try lia.
  cbn [fst snd] in *.
  destruct (dtw_core_shape rows cols penalty distance_matrix (np_zeros rows cols))
    as [HD' _]; [exact HD|apply has_shape_replicate|].
  assert (Hinner : (1 <= i)%nat /\ (1 <= j)%nat).
  { destruct Hchosen as (i' & j' & (Hi' & _) & (Hj' & _) & Hcase).
    rewrite (has_shape_shape0 rows cols), (has_shape_shape1 rows cols) in Hcase
      by (assumption || lia).
    destruct Hcase as [[_ Heq]|[_ Heq]]; injection Heq as -> ->; lia. }
  destruct (path_length_bounds rows cols distance_matrix penalty i j HD Hsize Hi Hj)
    as [Hlo _].
  set (steps := get2 (dtw_core distance_matrix penalty (np_zeros rows cols)).2 i j) in *.
  set (cost := get2 (dtw_core distance_matrix penalty (np_zeros rows cols)).1 i j).
  assert (Hcost : 0 <= cost).
  { subst cost. destruct i as [|i]; [lia|]. destruct j as [|j]; [lia|].
    destruct (dtw_core_interior rows cols distance_matrix (np_zeros rows cols)
                penalty i j) as [HcD _];
      try assumption; try lia; [apply has_shape_replicate|].
    rewrite !Nat.add_1_r in HcD. rewrite HcD. apply Z.mod_pos_bound. lia. }
  rewrite true_div_finite by lia. eexists. split; [reflexivity|].
  unfold Qle. cbn [Qnum Qden]. lia.
Qed.

Lemma dtw_finite_score_witness :
  exists q, dtw [[0; 2; 3]; [2; 0; 3]; [3; 3; 0]] (1 # 2) 1 = Some (Fin q) /\ (0 <= q)%Q.
Proof.
  apply (dtw_finite_score 3 3 [[0; 2; 3]; [2; 0; 3]; [3; 3; 0]] (1 # 2) 1).
  - split; [reflexivity|]. repeat constructor.
  - reflexivity.
  - cbn. lia.
  - reflexivity.
  - discriminate.
Defined.

(** ** When [dtw] raises *)

Lemma argmin_slice_beyond (offset : Z) (l : list Z) :
  Z.of_nat (length l) <= offset -> argmin (py_slice_from offset l) = None.
Proof.
  intros Hoff. unfold py_slice_from.
  replace (offset <? 0) with false by (symmetry; apply Z.ltb_ge; lia).
  rewrite drop_ge by lia. reflexivity.
Qed.

Lemma gully_offset_beyond (gully : Q) (n : Z) :
  (1 <= gully)%Q -> 0 <= n -> n <= int_of_float (gully * inject_Z n).
Proof.
  intros Hg Hn.
  assert (Hn' : (0 <= inject_Z n)%Q)
    by (change 0%Q with (inject_Z 0); rewrite <- Zle_Qle; lia).
  assert (Hle : (inject_Z n <= gully * inject_Z n)%Q).
  { rewrite <- (Qmult_1_l (inject_Z n)) at 1.
    apply Qmult_le_compat_r; assumption. }
  unfold int_of_float.
  assert (Hnonneg : Qle_bool 0 (gully * inject_Z n) = true)
    by (apply Qle_bool_iff; eapply Qle_trans; eassumption).
  rewrite Hnonneg. rewrite <- (Qfloor_Z n) at 1. apply Qfloor_resp_le, Hle.
Qed.

Lemma dtw_endpoint_raises rows cols (D : matrix) (gully : Q) :
  has_shape rows cols D ->
  (rows = 0 \/ cols = 0)%nat \/ (1 <= gully)%Q ->
  dtw_endpoint D gully = None.
Proof.
  intros HD Hbad. unfold dtw_endpoint.
  pose proof (proj1 HD) as Hlen.
  destruct (decide (rows = 0)%nat) as [Hr|Hr].
  { destruct D; [|cbn in Hlen; lia]. cbn [mapM mbind option_bind mret option_ret].
    unfold py_slice_from. destruct (_ <? 0); rewrite drop_nil; reflexivity. }
  pose proof (has_shape_shape0 _ _ _ HD) as Hs0.
  pose proof (has_shape_shape1 _ _ _ HD ltac:(lia)) as Hs1.
  rewrite Hs0, Hs1.
  destruct (decide (cols = 0)%nat) as [Hc|Hc].
  { rewrite mapM_None_2; [reflexivity|].
    destruct D as [|row D]; [cbn in Hlen; lia|]. apply Exists_cons_hd.
    destruct HD as [_ Hrows]. apply Forall_cons in Hrows as [Hrow _].
    destruct row; [reflexivity|cbn in Hrow; lia]. }
  destruct Hbad as [[?|?]|Hg]; [lia|lia|].
  rewrite (mapM_last_column cols) by (destruct HD; assumption || lia).
  cbn [mbind option_bind].
  pose proof (gully_offset_beyond gully (Z.min (Z.of_nat rows) (Z.of_nat cols)) Hg)
    as Hoff.
  set (offset := int_of_float _) in *. specialize (Hoff ltac:(lia)).
  destruct (argmin (py_slice_from offset (last_column D))) as [i|] eqn:Hi;
    [|reflexivity].
  cbn [mbind option_bind]. rewrite py_index_last by lia. cbn [mbind option_bind].
  assert (Hcols : Z.of_nat cols <= offset).
  { destruct (Z.le_gt_cases (Z.of_nat rows) (Z.of_nat cols)) as [Hle|Hgt]; [|lia].
    rewrite argmin_slice_beyond in Hi; [discriminate|].
    rewrite last_column_length. lia. }
  rewrite argmin_slice_beyond; [reflexivity|].
  rewrite (has_shape_row rows cols) by (assumption || lia). exact Hcols.
Qed.

(** X10: on a rectangular matrix and for a gully that is not negative, [dtw]
    raises exactly when the matrix has no row or no column or the gully is 1
    or more; otherwise it returns a score. *)
Theorem dtw_raises_iff rows cols (distance_matrix : matrix) (gully : Q) (penalty : Z) :
  has_shape rows cols distance_matrix -> (0 <= gully)%Q ->
  (dtw distance_matrix gully penalty = None
   <-> (rows = 0 \/ cols = 0)%nat \/ (1 <= gully)%Q).
Proof.
  intros HD H0. split.
  - intros Hnone.
    destruct (decide (rows = 0)%nat); [tauto|].
    destruct (decide (cols = 0)%nat); [tauto|].
    right. apply Qnot_lt_le. intros H1.
    destruct (dtw_total rows cols distance_matrix gully penalty HD) as [score Hscore];
      try assumption; try lia.
    congruence.
  - intros Hbad. unfold dtw.
    destruct (dtw_core_shape rows cols penalty distance_matrix
                (np_zeros (shape0 distance_matrix) (shape1 distance_matrix)))
      as [HD' _]; [exact HD| |].
    { rewrite (has_shape_shape0 _ _ _ HD).
      destruct (decide (rows = 0)%nat) as [->|Hr]; [split; [reflexivity|constructor]|].
      rewrite (has_shape_shape1 _ _ _ HD) by lia. apply has_shape_replicate. }
    destruct (dtw_core distance_matrix penalty _) as [D P]. cbn [fst] in HD'.
    rewrite (dtw_endpoint_raises rows cols D gully HD' Hbad). reflexivity.
Qed.

Lemma dtw_raises_iff_witness :
  dtw [[0; 2; 3]; [2; 0; 3]; [3; 3; 0]] 1 1 = None
  <-> (3 = 0 \/ 3 = 0)%nat \/ (1 <= 1)%Q.
Proof.
  apply (dtw_raises_iff 3 3 [[0; 2; 3]; [2; 0; 3]; [3; 3; 0]] 1 1).
  - split; [reflexivity|]. repeat constructor.
  - discriminate.
Defined.

(** ** The envelopes and the Keogh bound *)

Lemma reflect_lt (n : nat) (k : Z) : (0 < n)%nat -> (reflect n k < n)%nat.
Proof.
  intros Hn. unfold reflect.
  pose proof (Z.mod_pos_bound k (2 * Z.of_nat n) ltac:(lia)) as Hm.
  destruct (Z.ltb_spec (k mod (2 * Z.of_nat n)) (Z.of_nat n)); lia.
Qed.

Lemma window_members (x : list Z) (size i : nat) :
  (0 < length x)%nat -> Forall (fun v => v ∈ x) (window x size i).
Proof.
  intros Hx. unfold window. apply Forall_forall. intros v Hv.
  apply list_elem_of_fmap in Hv as (k & -> & _).
  apply list_elem_of_lookup_total_2, reflect_lt, Hx.
Qed.

Lemma window_centre (x : list Z) (size i : nat) :
  (0 < size)%nat -> (i < length x)%nat -> x !!! i ∈ window x size i.
Proof.
  intros Hsize Hi. unfold window. apply list_elem_of_fmap.
  exists (size / 2)%nat. split.
  - replace (Z.of_nat i - Z.of_nat (size / 2) + Z.of_nat (size / 2))
      with (Z.of_nat i) by lia.
    rewrite reflect_in_range by exact Hi. reflexivity.
  - apply elem_of_seq. split; [lia|]. cbn [Nat.add]. apply Nat.div_lt; lia.
Qed.

Lemma fold_left_max (w : list Z) (v : Z) :
  fold_left Z.max w v ∈ v :: w /\ Forall (fun a => a <= fold_left Z.max w v) (v :: w).
Proof.
  revert v. induction w as [|a w IH]; intros v; cbn [fold_left].
  - split; [left|]. repeat constructor. lia.
  - destruct (IH (Z.max v a)) as [Hin Hall].
    apply Forall_cons in Hall as [Hhd Htl]. split.
    + apply elem_of_cons in Hin as [Heq|Hin]; [|right; right; exact Hin].
      rewrite Heq. destruct (Z.max_spec v a) as [[_ ->]|[_ ->]];
        [right; left|left].
    + repeat apply Forall_cons_2; try lia. exact Htl.
Qed.

Lemma fold_left_min (w : list Z) (v : Z) :
  fold_left Z.min w v ∈ v :: w /\ Forall (fun a => fold_left Z.min w v <= a) (v :: w).
Proof.
  revert v. induction w as [|a w IH]; intros v; cbn [fold_left].
  - split; [left|]. repeat constructor. lia.
  - destruct (IH (Z.min v a)) as [Hin Hall].
    apply Forall_cons in Hall as [Hhd Htl]. split.
    + apply elem_of_cons in Hin as [Heq|Hin]; [|right; right; exact Hin].
      rewrite Heq. destruct (Z.min_spec v a) as [[_ ->]|[_ ->]];
        [left|right; left].
    + repeat apply Forall_cons_2; try lia. exact Htl.
Qed.

(** A cell of an envelope of a sequence of 16-bit values: the greatest, or
    the least, value of its window, which the conversion to [uint16] keeps. *)
Lemma envelope_cell (x : list Z) (r : Z) (u l : list Z) (i : nat) :
  Forall in_u16 x -> keogh_envelopes x r = Some (u, l) -> (i < length x)%nat ->
  1 <= r
  /\ (u !!! i ∈ window x (Z.to_nat r) i
      /\ Forall (fun v => v <= u !!! i) (window x (Z.to_nat r) i))
  /\ (l !!! i ∈ window x (Z.to_nat r) i
      /\ Forall (fun v => l !!! i <= v) (window x (Z.to_nat r) i)).
Proof.
  intros Hx Henv Hi.
  unfold keogh_envelopes, maximum_filter1d, minimum_filter1d, rank_filter1d in Henv.
  destruct (Z.ltb_spec r 1) as [|Hr]; [discriminate|].
  cbn [mbind option_bind] in Henv. injection Henv as <- <-.
  split; [exact Hr|].
  assert (Hcentre : x !!! i ∈ window x (Z.to_nat r) i)
    by (apply window_centre; lia).
  pose proof (window_members x (Z.to_nat r) i ltac:(lia)) as Hmem.
  assert (Hcell : forall (f : nat -> Z),
             map u16 (map f (seq 0 (length x))) !!! i = u16 (f i)).
  { intros f. rewrite map_map.
    apply list_lookup_total_correct.
    apply (list_lookup_fmap_Some_2 (fun i => u16 (f i)) _ i i).
    apply lookup_seq. split; [reflexivity|exact Hi]. }
  rewrite !Hcell.
  destruct (window x (Z.to_nat r) i) as [|v w] eqn:Hw;
    [apply elem_of_nil in Hcentre; contradiction|].
  destruct (fold_left_max w v) as [Hmax_in Hmax].
  destruct (fold_left_min w v) as [Hmin_in Hmin].
  assert (Hu16 : forall a, a ∈ v :: w -> u16 a = a).
  { intros a Ha. apply Z.mod_small.
    rewrite Forall_forall in Hmem, Hx. apply Hx, Hmem, Ha. }
  rewrite !Hu16 by assumption. repeat split; assumption.
Qed.

Lemma envelope_encloses (x : list Z) (r : Z) (u l : list Z) (i : nat) :
  Forall in_u16 x -> keogh_envelopes x r = Some (u, l) -> (i < length x)%nat ->
  in_u16 (u !!! i) /\ in_u16 (l !!! i) /\ l !!! i <= x !!! i <= u !!! i.
Proof.
  intros Hx Henv Hi.
  destruct (envelope_cell x r u l i Hx Henv Hi)
    as (Hr & (Hu_in & Hu) & (Hl_in & Hl)).
  pose proof (window_members x (Z.to_nat r) i ltac:(lia)) as Hmem.
  pose proof (window_centre x (Z.to_nat r) i ltac:(lia) Hi) as Hcentre.
  rewrite Forall_forall in Hmem, Hx, Hu, Hl.
  repeat split; try (apply Hx, Hmem; assumption).
  - apply Hl, Hcentre.
  - apply Hu, Hcentre.
Qed.



(** The bound at one position: the bits in which the candidate differs from
    the envelope it leaves. *)
Lemma masked_bits_index (mask : Z -> Z -> bool) (table : list Z) (n : nat) (y e : list Z) :
  length y = n -> length e = n ->
  masked_bits mask y e table
  = sum_list (map (fun i => if mask (y !!! i) (e !!! i)
                            then table !!! Z.to_nat (Z.lxor (y !!! i) (e !!! i))
                            else 0)
                  (seq 0 n)).
Proof.
  unfold masked_bits. revert y e.
  induction n as [|n IH]; intros [|a y] [|b e] Hy He; try discriminate; [reflexivity|].
  cbn [length] in Hy, He. cbn [seq map]. rewrite <- seq_shift, map_map.
  cbn [zip zip_with List.filter fst snd].
  change (zip_with pair y e) with (zip y e).
  change ((a :: y) !!! 0%nat) with a. change ((b :: e) !!! 0%nat) with b.
  specialize (IH y e ltac:(lia) ltac:(lia)).
  destruct (mask a b); cbn [map sum_list fold_right]; fold (sum_list);
    unfold sum_list in *; rewrite IH; reflexivity.
Qed.

Lemma lb_keogh_trimmed (u l y table : list Z) :
  length l = length u ->
  let n := Nat.min (length u) (length y) in
  lb_keogh u l y table
  = true_div (masked_bits (fun yi ui => ui <? yi) (take n y) (take n u) table
              + masked_bits (fun yi li => yi <? li) (take n y) (take n l) table)
             (Z.of_nat n).
Proof.
  intros Hl n. unfold lb_keogh. subst n.
  destruct (Nat.ltb_spec (length u) (length y)) as [Hlt|Hge].
  - rewrite Nat.min_l by lia.
    rewrite (take_ge u), (take_ge l) by lia. reflexivity.
  - rewrite Nat.min_r by lia. rewrite (take_ge y) by lia.
    rewrite length_take, Nat.min_l by lia. reflexivity.
Qed.

Lemma sum_list_map_nonneg {A} (f : A -> Z) (l : list A) :
  Forall (fun a => 0 <= f a) l ->
  0 <= sum_list (map f l)
  /\ (sum_list (map f l) = 0 <-> Forall (fun a => f a = 0) l).
Proof.
  unfold sum_list. induction 1 as [|a l Ha Hl IH]; cbn [map fold_right].
  - split; [lia|]. split; [constructor|reflexivity].
  - destruct IH as [IH0 IHz]. split; [lia|]. split.
    + intros Hsum. apply Forall_cons_2; [lia|]. apply IHz. lia.
    + intros Hall. apply Forall_cons in Hall as [Hz Hall].
      apply IHz in Hall. lia.
Qed.

Lemma sum_list_map_at_most {A} (f : A -> Z) (c : Z) (l : list A) :
  Forall (fun a => f a <= c) l -> sum_list (map f l) <= c * Z.of_nat (length l).
Proof.
  unfold sum_list. induction 1 as [|a l Ha Hl IH]; cbn [map fold_right length]; lia.
Qed.

Lemma sum_list_map_add {A} (f g : A -> Z) (l : list A) :
  sum_list (map f l) + sum_list (map g l) = sum_list (map (fun a => f a + g a) l).
Proof.
  unfold sum_list. induction l as [|a l IH]; cbn [map fold_right]; lia.
Qed.

Lemma bits_differing (a b : Z) :
  in_u16 a -> in_u16 b ->
  0 <= bits_set !!! Z.to_nat (Z.lxor a b) <= 16
  /\ (a <> b -> 0 < bits_set !!! Z.to_nat (Z.lxor a b)).
Proof.
  intros Ha Hb. pose proof (lxor_in_u16 a b Ha Hb) as Hxor.
  rewrite bits_set_lookup by exact Hxor.
  split; [apply (popcount_at_most 16), Hxor|].
  intros Hne. destruct Hxor as [H0 _].
  destruct (Z.lxor a b) as [|p|p] eqn:Heq; [|apply popcount_pos_bounds|lia].
  exfalso. apply Hne, Z.lxor_eq_0_iff, Heq.
Qed.

Lemma lb_keogh_sum (u l y : list Z) :
  length l = length u ->
  let n := Nat.min (length u) (length y) in
  lb_keogh u l y bits_set
  = true_div (sum_list (map (keogh_term u l y) (seq 0 n))) (Z.of_nat n).
Proof.
  intros Hl n. rewrite lb_keogh_trimmed by exact Hl. fold n.
  rewrite !(masked_bits_index _ _ n) by (rewrite length_take; lia).
  rewrite sum_list_map_add.
  rewrite (map_ext_in _ (keogh_term u l y) (seq 0 n)); [reflexivity|].
  intros i Hi. apply in_seq in Hi. unfold keogh_term.
  rewrite !lookup_total_take. destruct (decide (i < n)%nat); [reflexivity|lia].
Qed.

Lemma keogh_term_range (u l y : list Z) (i : nat) :
  in_u16 (u !!! i) -> in_u16 (l !!! i) -> in_u16 (y !!! i) ->
  0 <= keogh_term u l y i
  /\ (keogh_term u l y i = 0 <-> l !!! i <= y !!! i <= u !!! i)
  /\ (l !!! i <= u !!! i -> keogh_term u l y i <= 16).
Proof.
  intros Hu Hl Hy. unfold keogh_term.
  destruct (bits_differing (y !!! i) (u !!! i) Hy Hu) as [Hur Hup].
  destruct (bits_differing (y !!! i) (l !!! i) Hy Hl) as [Hlr Hlp].
  destruct (Z.ltb_spec (u !!! i) (y !!! i)) as [Hgt|Hle];
    destruct (Z.ltb_spec (y !!! i) (l !!! i)) as [Hlt|Hge].
  - specialize (Hup ltac:(lia)). specialize (Hlp ltac:(lia)).
    split; [lia|]. split; [split; lia|lia].
  - specialize (Hup ltac:(lia)). split; [lia|]. split; [split; lia|lia].
  - specialize (Hlp ltac:(lia)). split; [lia|]. split; [split; lia|lia].
  - split; [lia|]. split; [split; lia|lia].
Qed.

Section keogh_bound.
Variables u l y : list Z.
Hypothesis Hu : Forall in_u16 u.
Hypothesis Hl : Forall in_u16 l.
Hypothesis Hy : Forall in_u16 y.
Hypothesis Hlen : length l = length u.

Let n := Nat.min (length u) (length y).

Lemma keogh_terms_range (i : nat) :
  (i < n)%nat ->
  0 <= keogh_term u l y i
  /\ (keogh_term u l y i = 0 <-> l !!! i <= y !!! i <= u !!! i)
  /\ (l !!! i <= u !!! i -> keogh_term u l y i <= 16).
Proof.
  intros Hi. subst n.
  apply keogh_term_range; apply Forall_lookup_total_in; assumption || lia.
Qed.

Lemma lb_keogh_value :
  (0 < n)%nat ->
  lb_keogh u l y bits_set
  = Fin (sum_list (map (keogh_term u l y) (seq 0 n)) # Z.to_pos (Z.of_nat n)).
Proof.
  intros Hn. rewrite lb_keogh_sum by exact Hlen. fold n.
  apply true_div_finite. lia.
Qed.

Lemma keogh_sum_zero :
  0 <= sum_list (map (keogh_term u l y) (seq 0 n))
  /\ (sum_list (map (keogh_term u l y) (seq 0 n)) = 0
      <-> forall i, (i < n)%nat -> l !!! i <= y !!! i <= u !!! i).
Proof.
  destruct (sum_list_map_nonneg (keogh_term u l y) (seq 0 n)) as [H0 Hz].
  { apply Forall_forall. intros i Hi. apply elem_of_seq in Hi.
    apply keogh_terms_range. lia. }
  split; [exact H0|]. rewrite Hz, Forall_forall. split.
  - intros Hall i Hi. apply keogh_terms_range; [exact Hi|].
    apply Hall, elem_of_seq. lia.
  - intros Hall i Hi. apply elem_of_seq in Hi.
    apply keogh_terms_range; [lia|]. apply Hall. lia.
Qed.
End keogh_bound.

(** X12: for 16-bit envelopes of one length and a 16-bit candidate, none of
    them empty, the Keogh bound is a finite number that is not negative, and
    it is zero exactly when the candidate lies between the two envelopes at
    every position that both have. *)
Theorem lb_keogh_zero_iff_inside (u l y : list Z) :
  Forall in_u16 u -> Forall in_u16 l -> Forall in_u16 y ->
  length l = length u -> (0 < length u)%nat -> (0 < length y)%nat ->
  exists q,
    lb_keogh u l y bits_set = Fin q /\ (0 <= q)%Q
    /\ ((q == 0)%Q
        <-> forall i, (i < Nat.min (length u) (length y))%nat ->
              l !!! i <= y !!! i <= u !!! i).
Proof.
  intros Hu Hl Hy Hlen Hu0 Hy0.
  eexists. split; [apply lb_keogh_value; assumption || lia|].
  destruct (keogh_sum_zero u l y Hu Hl Hy Hlen) as [H0 Hz].
  split.
  - unfold Qle. cbn [Qnum Qden]. lia.
  - rewrite <- Hz. unfold Qeq. cbn [Qnum Qden]. lia.
Qed.

Lemma lb_keogh_zero_iff_inside_witness :
  exists q,
    lb_keogh [5; 5; 9] [1; 1; 3] [4; 7] bits_set = Fin q /\ (0 <= q)%Q
    /\ ((q == 0)%Q
        <-> forall i, (i < Nat.min (length [5; 5; 9]) (length [4; 7]))%nat ->
              [1; 1; 3] !!! i <= [4; 7] !!! i <= [5; 5; 9] !!! i).
Proof.
  apply (lb_keogh_zero_iff_inside [5; 5; 9] [1; 1; 3] [4; 7]);
    try (repeat constructor; unfold in_u16; lia); cbn [length]; lia.
Defined.

(** X13: when moreover the lower envelope is nowhere above the upper one, the
    Keogh bound is at most 16, the number of bits of a value. *)
Theorem lb_keogh_at_most_16 (u l y : list Z) :
  Forall in_u16 u -> Forall in_u16 l -> Forall in_u16 y ->
  length l = length u -> (0 < length u)%nat -> (0 < length y)%nat ->
  (forall i, (i < Nat.min (length u) (length y))%nat -> l !!! i <= u !!! i) ->
  exists q, lb_keogh u l y bits_set = Fin q /\ (0 <= q <= 16)%Q.
Proof.
  intros Hu Hl Hy Hlen Hu0 Hy0 Hlu.
  eexists. split; [apply lb_keogh_value; assumption || lia|].
  destruct (keogh_sum_zero u l y Hu Hl Hy Hlen) as [H0 _].
  pose proof (sum_list_map_at_most (keogh_term u l y) 16
                (seq 0 (Nat.min (length u) (length y)))) as Hmost.
  rewrite length_seq in Hmost.
  assert (Hall : Forall (fun i => keogh_term u l y i <= 16)
                        (seq 0 (Nat.min (length u) (length y)))).
  { apply Forall_forall. intros i Hi. apply elem_of_seq in Hi.
    apply keogh_terms_range; try assumption; try lia. apply Hlu. lia. }
  specialize (Hmost Hall).
  split; unfold Qle; cbn [Qnum Qden]; [lia|].
  rewrite Z2Pos.id by lia. lia.
Qed.

Lemma lb_keogh_at_most_16_witness :
  exists q, lb_keogh [5; 5; 9] [1; 1; 3] [4; 7] bits_set = Fin q /\ (0 <= q <= 16)%Q.
Proof.
  apply (lb_keogh_at_most_16 [5; 5; 9] [1; 1; 3] [4; 7]);
    try (repeat constructor; unfold in_u16; lia); try (cbn [length]; lia).
  intros i Hi. cbn [length Nat.min] in Hi.
  destruct i as [|[|i]]; [cbv; discriminate|cbv; discriminate|lia].
Defined.

(** X14: the Keogh bound of a sequence of 16-bit values, not empty, against
    its own envelopes is zero, whatever the window. *)
Theorem lb_keogh_own_envelopes (x : list Z) (r : Z) (u l : list Z) :
  Forall in_u16 x -> x <> [] -> keogh_envelopes x r = Some (u, l) ->
  exists q, lb_keogh u l x bits_set = Fin q /\ (q == 0)%Q.
Proof.
  intros Hx Hne Henv.
  destruct (keogh_envelopes_Some x r u l Henv) as [Hulen Hllen].
  assert (Hx0 : (0 < length x)%nat) by (destruct x; [contradiction|cbn; lia]).
  assert (Hu : Forall in_u16 u).
  { apply Forall_lookup. intros i v Hv.
    pose proof (lookup_lt_Some _ _ _ Hv) as Hi.
    apply list_lookup_total_correct in Hv. subst v.
    apply (envelope_encloses x r u l i Hx Henv). lia. }
  assert (Hl : Forall in_u16 l).
  { apply Forall_lookup. intros i v Hv.
    pose proof (lookup_lt_Some _ _ _ Hv) as Hi.
    apply list_lookup_total_correct in Hv. subst v.
    apply (envelope_encloses x r u l i Hx Henv). lia. }
  eexists. split; [apply lb_keogh_value; assumption || lia|].
  destruct (keogh_sum_zero u l x Hu Hl Hx ltac:(lia)) as [_ Hz].
  unfold Qeq. cbn [Qnum Qden]. rewrite Z.mul_1_r. cbn [Z.mul]. apply Hz.
  intros i Hi. apply (envelope_encloses x r u l i Hx Henv). lia.
Qed.

Lemma lb_keogh_own_envelopes_witness :
  exists q, lb_keogh [5; 9; 9; 9] [1; 1; 1; 3] [5; 1; 9; 3] bits_set = Fin q /\ (q == 0)%Q.
Proof.
  apply (lb_keogh_own_envelopes [5; 1; 9; 3] 3).
  - repeat constructor; unfold in_u16; lia.
  - discriminate.
  - reflexivity.
Defined.

(** ** The order of the returned lists *)

Lemma sorts_before_refl a : sorts_before a a = true.
Proof. destruct a as [q| |]; try reflexivity. apply Qle_bool_iff, Qle_refl. Qed.

Lemma sorts_before_total a b : sorts_before a b = false -> sorts_before b a = true.
Proof.
  destruct a as [p| |], b as [q| |]; cbn; try discriminate; try reflexivity.
  intros Hpq. apply Qle_bool_iff. apply not_true_iff_false in Hpq.
  rewrite Qle_bool_iff in Hpq. apply Qlt_le_weak, Qnot_le_lt, Hpq.
Qed.

Lemma sorts_before_trans a b c :
  sorts_before a b = true -> sorts_before b c = true -> sorts_before a c = true.
Proof.
  destruct a as [p| |], b as [q| |], c as [r| |]; cbn;
    try discriminate; try reflexivity.
  rewrite !Qle_bool_iff. apply Qle_trans.
Qed.

Lemma scores_ascending_cons a scores :
  scores_ascending (a :: scores)
  <-> Forall (fun b => sorts_before a b = true) scores /\ scores_ascending scores.
Proof.
  split.
  - intros Hasc. split.
    + apply Forall_lookup. intros i b Hb.
      apply (Hasc 0%nat (S i) a b); [reflexivity|exact Hb|lia].
    + intros i j x y Hx Hy Hij. apply (Hasc (S i) (S j) x y); try assumption. lia.
  - intros [Hhd Htl] [|i] [|j] x y Hx Hy Hij; cbn in Hx, Hy.
    + injection Hx as <-. injection Hy as <-. apply sorts_before_refl.
    + injection Hx as <-. rewrite Forall_lookup in Hhd. apply (Hhd j), Hy.
    + lia.
    + apply (Htl i j); try assumption. lia.
Qed.

Lemma insert_index_sorted (scores : list float) (n : nat) (sorted : list nat) :
  scores_ascending ((fun m => scores !!! m) <$> sorted) ->
  scores_ascending ((fun m => scores !!! m) <$> insert_index scores n sorted).
Proof.
  induction sorted as [|m rest IH]; cbn [insert_index fmap list_fmap].
  - intros _. apply scores_ascending_cons. split; [constructor|].
    intros i j x y Hx. destruct i; discriminate.
  - intros Hasc. apply scores_ascending_cons in Hasc as [Hhd Htl].
    destruct (sorts_before (scores !!! m) (scores !!! n)) eqn:Hmn;
      cbn [fmap list_fmap]; apply scores_ascending_cons.
    + split; [|apply IH, Htl].
      rewrite insert_index_permutation. cbn [fmap list_fmap].
      apply Forall_cons_2; assumption.
    + apply sorts_before_total in Hmn. split.
      * apply Forall_cons_2; [exact Hmn|].
        eapply Forall_impl; [exact Hhd|]. cbn. intros b Hb.
        eapply sorts_before_trans; eassumption.
      * apply scores_ascending_cons. split; assumption.
Qed.

Lemma argsort_sorted (scores : list float) :
  scores_ascending ((fun m => scores !!! m) <$> argsort scores).
Proof.
  unfold argsort.
  apply (fold_left_invariant _
           (fun sorted => scores_ascending ((fun m => scores !!! m) <$> sorted))).
  - intros sorted n. apply insert_index_sorted.
  - intros i j x y Hx. destruct i; discriminate.
Qed.

(** X15: the two lists [match_one_sequence] returns have one length, no
    index stands twice in the matches, and the scores are in ascending order
    with [nan] last. *)
Theorem match_result_sorted (query : list Z) (query_length : Q)
    (sequences : list (list Z)) (lengths : list Z) (length_tolerance : Q)
    (radius : Z) (gully : Q) (penalty : Z) (matches : list nat) (scores : list float) :
  match_one_sequence query query_length sequences lengths length_tolerance
                     radius gully penalty = Some (matches, scores) ->
  length matches = length scores /\ NoDup matches /\ scores_ascending scores.
Proof.
  intros Hmatch.
  destruct (match_one_sequence_inv _ _ _ _ _ _ _ _ _ _ Hmatch)
    as (u & l & best & ms & ss & _ & _ & _ & Hsub & _ & Hperm & Hlen).
  split; [exact Hlen|]. split.
  - rewrite Hperm. eapply sublist_NoDup; [apply NoDup_seq|exact Hsub].
  - unfold match_one_sequence in Hmatch.
    destruct (keogh_envelopes query radius) as [[u' l']|]; [|discriminate].
    cbn [mbind option_bind] in Hmatch.
    destruct (fold_left _ _ _) as [[[best' ms'] ss']|]; [|discriminate].
    cbn [mbind option_bind] in Hmatch. injection Hmatch as _ <-.
    apply argsort_sorted.
Qed.

Lemma match_result_sorted_witness :
  length [2; 1]%nat = length [Fin (0 # 2); Fin 1]
  /\ NoDup [2; 1]%nat /\ scores_ascending [Fin (0 # 2); Fin 1].
Proof.
  apply (match_result_sorted [1; 2; 3] 3
           [[1]; [1; 3]; [1; 2; 3]; [1; 2; 3; 4]; [0; 1; 2; 3; 4; 5; 6]]
           [1; 2; 3; 4; 7] (1 # 2) 1 (1 # 2) 1 [2; 1]%nat [Fin (0 # 2); Fin 1]).
  exact match_example.
Defined.

(** ** What the loop of the matcher keeps *)

Lemma float_lt_le_trans a b c :
  float_lt a b = true -> float_le b c = true -> float_lt a c = true.
Proof.
  destruct a as [p| |], b as [q| |], c as [r| |]; cbn;
    try discriminate; try reflexivity.
  rewrite !negb_true_iff, <- !not_true_iff_false, !Qle_bool_iff.
  intros Hpq Hqr Hrp. apply Hpq. eapply Qle_trans; eassumption.
Qed.

Lemma float_lt_finite a b : float_lt a b = true -> a <> NaN /\ a <> PInf.
Proof. destruct a; cbn; [split|..]; discriminate. Qed.

Lemma float_lt_false_le a b :
  float_lt a b = false -> a <> NaN -> b <> NaN -> float_le b a = true.
Proof.
  destruct a as [p| |], b as [q| |]; cbn; try discriminate; try reflexivity;
    try contradiction.
  intros Hlt _ _. apply negb_false_iff in Hlt. exact Hlt.
Qed.

Lemma float_lt_le a b : float_lt a b = true -> float_le a b = true.
Proof.
  destruct a as [p| |], b as [q| |]; cbn; try discriminate; try reflexivity.
  rewrite negb_true_iff, <- not_true_iff_false, !Qle_bool_iff.
  intros Hlt. apply Qlt_le_weak, Qnot_le_lt, Hlt.
Qed.

Lemma float_le_refl a : a <> NaN -> float_le a a = true.
Proof.
  destruct a as [p| |]; cbn; try reflexivity; try contradiction.
  intros _. apply Qle_bool_iff, Qle_refl.
Qed.

Lemma float_le_trans a b c :
  float_le a b = true -> float_le b c = true -> float_le a c = true.
Proof.
  destruct a as [p| |], b as [q| |], c as [r| |]; cbn;
    try discriminate; try reflexivity.
  rewrite !Qle_bool_iff. apply Qle_trans.
Qed.

Section match_pruning.
Variables (query : list Z) (sequences : list (list Z)) (u l : list Z).
Variables (gully : Q) (penalty : Z) (start : nat).

Let step := match_candidate query sequences u l gully penalty.

(** After the candidates [start .. start + len - 1]: the best score is the
    least score so far that is a number, every match has the score of its
    alignment, every aligned candidate had a bound below the scores before
    it, and every other candidate had a bound that is not. *)
Let invariant (len : nat) (best : float) (ms : list nat) (ss : list float) : Prop :=
  length ms = length ss
  /\ (forall n s, (n, s) ∈ zip ms ss -> (start <= n < start + len)%nat)
  /\ best <> NaN
  /\ (best = PInf \/ exists n, (n, best) ∈ zip ms ss)
  /\ (forall n s, (n, s) ∈ zip ms ss -> s <> NaN -> float_le best s = true)
  /\ (forall n s, (n, s) ∈ zip ms ss ->
        exists candidate,
          sequences !! n = Some candidate
          /\ dtw (int_dist query candidate
                    (np_empty (length query) (length candidate)) bits_set)
                 gully penalty = Some s
          /\ forall n' s', (n', s') ∈ zip ms ss -> (n' < n)%nat -> s' <> NaN ->
               float_lt (lb_keogh u l candidate bits_set) s' = true)
  /\ (forall n, (start <= n < start + len)%nat -> n ∉ ms ->
        exists candidate,
          sequences !! n = Some candidate
          /\ (float_lt (lb_keogh u l candidate bits_set) PInf = false
              \/ exists n' s', (n', s') ∈ zip ms ss /\ (n' < n)%nat
                   /\ float_lt (lb_keogh u l candidate bits_set) s' = false)).

Lemma match_invariant_step len best ms ss best' ms' ss' :
  invariant len best ms ss ->
  step (Some (best, ms, ss)) (start + len)%nat = Some (best', ms', ss') ->
  invariant (S len) best' ms' ss'.
Proof.
  intros (Hlen & Hrange & Hnan & Hbest & Hleast & Hscore & Hskip) Hstep.
  destruct (match_candidate_cases _ _ _ _ _ _ _ _ _ _ _ Hstep)
    as (candidate & Hcand & [[Hbound Heq]|[Hbound (score & Hdtw & Heq)]]);
    injection Heq as -> -> ->.
  - (* the candidate is passed over *)
    repeat split; try assumption.
    + apply Hrange in H. lia.
    + apply Hrange in H. lia.
    + intros n Hn Hnot.
      destruct (decide (n = start + len)%nat) as [->|Hne];
        [|apply Hskip; [lia|exact Hnot]].
      exists candidate. split; [exact Hcand|].
      destruct Hbest as [->|[n' Hn']]; [left; exact Hbound|].
      right. exists n', best. split; [exact Hn'|].
      split; [|exact Hbound]. apply Hrange in Hn'. lia.
  - (* the candidate is aligned *)
    assert (Hzip : zip (ms ++ [(start + len)%nat]) (ss ++ [score])
                   = zip ms ss ++ [((start + len)%nat, score)])
      by exact (zip_with_app pair ms [(start + len)%nat] ss [score] Hlen).
    unfold invariant. rewrite Hzip.
    assert (Hin : forall n s, (n, s) ∈ zip ms ss ++ [((start + len)%nat, score)]
                   <-> (n, s) ∈ zip ms ss \/ (n = (start + len)%nat /\ s = score)).
    { intros n s. rewrite elem_of_app, list_elem_of_singleton.
      split; (intros [Hold|Hnew]; [left; exact Hold|right]).
      - injection Hnew as -> ->. split; reflexivity.
      - destruct Hnew as [-> ->]. reflexivity. }
    split; [rewrite !length_app; cbn [length]; lia|].
    split.
    { intros n s Hn. apply Hin in Hn as [Hn|[-> _]]; [apply Hrange in Hn|]; lia. }
    split.
    { destruct (float_lt score best) eqn:Hlt; [|exact Hnan].
      apply float_lt_finite in Hlt. tauto. }
    split.
    { destruct (float_lt score best) eqn:Hlt.
      - right. exists (start + len)%nat. apply Hin. right. split; reflexivity.
      - destruct Hbest as [->|[n Hn]]; [left; reflexivity|].
        right. exists n. apply Hin. left. exact Hn. }
    split.
    { intros n s Hn Hs. apply Hin in Hn as [Hn|[-> ->]].
      - specialize (Hleast n s Hn Hs).
        destruct (float_lt score best) eqn:Hlt; [|exact Hleast].
        eapply float_le_trans; [apply float_lt_le, Hlt|exact Hleast].
      - destruct (float_lt score best) eqn:Hlt; [apply float_le_refl, Hs|].
        apply float_lt_false_le; assumption. }
    split.
    { intros n s Hn. apply Hin in Hn as [Hn|[-> ->]].
      - destruct (Hscore n s Hn) as (c & Hc & Hd & Hearlier).
        exists c. split; [exact Hc|]. split; [exact Hd|].
        intros n' s' Hn' Hlt Hs'. apply Hin in Hn' as [Hn'|[-> ->]].
        + apply (Hearlier n'); assumption.
        + apply Hrange in Hn. lia.
      - exists candidate. split; [exact Hcand|]. split; [exact Hdtw|].
        intros n' s' Hn' Hlt Hs'. apply Hin in Hn' as [Hn'|[-> _]]; [|lia].
        eapply float_lt_le_trans; [exact Hbound|]. apply (Hleast n'); assumption. }
    intros n Hn Hnot. apply not_elem_of_app in Hnot as [Hnot Hne].
    rewrite list_elem_of_singleton in Hne.
    destruct (Hskip n ltac:(lia) Hnot) as (c & Hc & Hcase).
    exists c. split; [exact Hc|].
    destruct Hcase as [Hinf|(n' & s' & Hn' & Hlt & Hb)]; [left; exact Hinf|].
    right. exists n', s'. split; [apply Hin; left; exact Hn'|]. split; assumption.
Qed.

Lemma match_loop_invariant len best ms ss :
  fold_left step (seq start len) (Some (PInf, [], [])) = Some (best, ms, ss) ->
  invariant len best ms ss.
Proof.
  revert best ms ss. induction len as [|len IH]; intros best ms ss Hfold.
  - cbn [seq fold_left] in Hfold. injection Hfold as <- <- <-.
    unfold invariant. cbn [zip zip_with].
    repeat split; try discriminate; try (left; reflexivity);
      try (intros; exfalso; eapply not_elem_of_nil; eassumption).
    intros n Hn. lia.
  - rewrite seq_S, fold_left_app in Hfold. cbn [fold_left] in Hfold.
    destruct (fold_left step (seq start len) (Some (PInf, [], [])))
      as [[[best0 ms0] ss0]|]; [|discriminate].
    eapply match_invariant_step; [apply IH; reflexivity|exact Hfold].
Qed.
End match_pruning.

(** The same, of the lists [match_one_sequence] returns: a pair [(n, s)] of
    [zip matches scores] is a match with its score. *)
Lemma match_result_pruning (query : list Z) (query_length : Q)
    (sequences : list (list Z)) (lengths : list Z) (length_tolerance : Q)
    (radius : Z) (gully : Q) (penalty : Z) (matches : list nat) (scores : list float) :
  match_one_sequence query query_length sequences lengths length_tolerance
                     radius gully penalty = Some (matches, scores) ->
  exists u l,
    keogh_envelopes query radius = Some (u, l)
    /\ (forall n s, (n, s) ∈ zip matches scores ->
          exists candidate,
            sequences !! n = Some candidate
            /\ dtw (int_dist query candidate
                      (np_empty (length query) (length candidate)) bits_set)
                   gully penalty = Some s
            /\ forall n' s', (n', s') ∈ zip matches scores -> (n' < n)%nat ->
                 s' <> NaN ->
                 float_lt (lb_keogh u l candidate bits_set) s' = true)
    /\ (forall n,
          (searchsorted lengths (lower_length length_tolerance query_length) Left <= n
           < searchsorted lengths (upper_length length_tolerance query_length) Right)%nat ->
          n ∉ matches ->
          exists candidate,
            sequences !! n = Some candidate
            /\ (float_lt (lb_keogh u l candidate bits_set) PInf = false
                \/ exists n' s', (n', s') ∈ zip matches scores /\ (n' < n)%nat
                     /\ float_lt (lb_keogh u l candidate bits_set) s' = false)).
Proof.
  intros Hmatch.
  destruct (match_one_sequence_inv _ _ _ _ _ _ _ _ _ _ Hmatch)
    as (u & l & best & ms & ss & Henv & Hfold & _ & _ & Hzip & Hperm & _).
  apply match_loop_invariant in Hfold. cbv beta in Hfold.
  destruct Hfold as (_ & _ & _ & _ & _ & Hscore & Hskip).
  exists u, l. split; [exact Henv|]. split.
  - intros n s Hn. rewrite Hzip in Hn.
    destruct (Hscore n s Hn) as (c & Hc & Hd & Hearlier).
    exists c. split; [exact Hc|]. split; [exact Hd|].
    intros n' s' Hn'. rewrite Hzip in Hn'. apply Hearlier, Hn'.
  - intros n Hn Hnot. rewrite Hperm in Hnot.
    destruct (Hskip n ltac:(lia) Hnot) as (c & Hc & Hcase).
    exists c. split; [exact Hc|].
    destruct Hcase as [Hinf|(n' & s' & Hn' & Hlt & Hb)]; [left; exact Hinf|].
    right. exists n', s'. rewrite Hzip. repeat split; assumption.
Qed.

(** X16: every score [match_one_sequence] returns is the score [dtw] gives to
    the distance matrix of the query and of the candidate whose index stands
    at the same position of the matches. *)
Theorem match_scores_are_alignments (query : list Z) (query_length : Q)
    (sequences : list (list Z)) (lengths : list Z) (length_tolerance : Q)
    (radius : Z) (gully : Q) (penalty : Z) (matches : list nat) (scores : list float) :
  match_one_sequence query query_length sequences lengths length_tolerance
                     radius gully penalty = Some (matches, scores) ->
  forall k n s, matches !! k = Some n -> scores !! k = Some s ->
    exists candidate,
      sequences !! n = Some candidate
      /\ dtw (int_dist query candidate
                (np_empty (length query) (length candidate)) bits_set)
             gully penalty = Some s.
Proof.
  intros Hmatch k n s Hn Hs.
  destruct (match_result_pruning _ _ _ _ _ _ _ _ _ _ Hmatch)
    as (u & l & _ & Hscore & _).
  destruct (Hscore n s) as (c & Hc & Hd & _); [|exists c; split; assumption].
  apply list_elem_of_lookup. exists k. apply lookup_zip_with_Some.
  exists n, s. repeat split; assumption.
Qed.

Lemma match_scores_are_alignments_witness :
  exists candidate,
    [[1]; [1; 3]; [1; 2; 3]; [1; 2; 3; 4]; [0; 1; 2; 3; 4; 5; 6]] !! 2%nat
    = Some candidate
    /\ dtw (int_dist [1; 2; 3] candidate
              (np_empty (length [1; 2; 3]) (length candidate)) bits_set)
           (1 # 2) 1 = Some (Fin (0 # 2)).
Proof.
  apply (match_scores_are_alignments [1; 2; 3] 3
           [[1]; [1; 3]; [1; 2; 3]; [1; 2; 3; 4]; [0; 1; 2; 3; 4; 5; 6]]
           [1; 2; 3; 4; 7] (1 # 2) 1 (1 # 2) 1 [2; 1]%nat [Fin (0 # 2); Fin 1]
           match_example 0%nat 2%nat (Fin (0 # 2))); reflexivity.
Defined.

(** X17: a candidate is aligned only when its Keogh bound is below every
    score, [nan] apart, of the matches with a smaller index: for two pairs
    [(n', s')] and [(n, s)] of the result with [n' < n] and [s'] a number,
    the bound of candidate [n] against the envelopes of the query is less
    than [s']. *)
Theorem match_bound_below_earlier_scores (query : list Z) (query_length : Q)
    (sequences : list (list Z)) (lengths : list Z) (length_tolerance : Q)
    (radius : Z) (gully : Q) (penalty : Z) (matches : list nat) (scores : list float) :
  match_one_sequence query query_length sequences lengths length_tolerance
                     radius gully penalty = Some (matches, scores) ->
  exists u l,
    keogh_envelopes query radius = Some (u, l)
    /\ forall n s n' s',
         (n, s) ∈ zip matches scores -> (n', s') ∈ zip matches scores ->
         (n' < n)%nat -> s' <> NaN ->
         exists candidate,
           sequences !! n = Some candidate
           /\ float_lt (lb_keogh u l candidate bits_set) s' = true.
Proof.
  intros Hmatch.
  destruct (match_result_pruning _ _ _ _ _ _ _ _ _ _ Hmatch)
    as (u & l & Henv & Hscore & _).
  exists u, l. split; [exact Henv|].
  intros n s n' s' Hn Hn' Hlt Hs'.
  destruct (Hscore n s Hn) as (c & Hc & _ & Hearlier).
  exists c. split; [exact Hc|]. apply (Hearlier n'); assumption.
Qed.

Lemma match_bound_below_earlier_scores_witness :
  exists u l,
    keogh_envelopes [1; 2; 3] 1 = Some (u, l)
    /\ forall n s n' s',
         (n, s) ∈ zip [2; 1]%nat [Fin (0 # 2); Fin 1] ->
         (n', s') ∈ zip [2; 1]%nat [Fin (0 # 2); Fin 1] ->
         (n' < n)%nat -> s' <> NaN ->
         exists candidate,
           [[1]; [1; 3]; [1; 2; 3]; [1; 2; 3; 4]; [0; 1; 2; 3; 4; 5; 6]] !! n
           = Some candidate
           /\ float_lt (lb_keogh u l candidate bits_set) s' = true.
Proof.
  apply (match_bound_below_earlier_scores [1; 2; 3] 3
           [[1]; [1; 3]; [1; 2; 3]; [1; 2; 3; 4]; [0; 1; 2; 3; 4; 5; 6]]
           [1; 2; 3; 4; 7] (1 # 2) 1 (1 # 2) 1 [2; 1]%nat [Fin (0 # 2); Fin 1]).
  exact match_example.
Defined.

(** X18: a candidate of the range [[start, end)] that is not among the matches
    was passed over for its Keogh bound: the bound is not below [np.inf],
    or it is not below the score of a match with a smaller index. *)
Theorem match_skipped_for_bound (query : list Z) (query_length : Q)
    (sequences : list (list Z)) (lengths : list Z) (length_tolerance : Q)
    (radius : Z) (gully : Q) (penalty : Z) (matches : list nat) (scores : list float) :
  match_one_sequence query query_length sequences lengths length_tolerance
                     radius gully penalty = Some (matches, scores) ->
  exists u l,
    keogh_envelopes query radius = Some (u, l)
    /\ forall n,
         (searchsorted lengths (lower_length length_tolerance query_length) Left <= n
          < searchsorted lengths (upper_length length_tolerance query_length) Right)%nat ->
         n ∉ matches ->
         exists candidate,
           sequences !! n = Some candidate
           /\ (float_lt (lb_keogh u l candidate bits_set) PInf = false
               \/ exists n' s', (n', s') ∈ zip matches scores /\ (n' < n)%nat
                    /\ float_lt (lb_keogh u l candidate bits_set) s' = false).
Proof.
  intros Hmatch.
  destruct (match_result_pruning _ _ _ _ _ _ _ _ _ _ Hmatch)
    as (u & l & Henv & _ & Hskip).
  exists u, l. split; [exact Henv|exact Hskip].
Qed.

Lemma match_skipped_for_bound_witness :
  exists u l,
    keogh_envelopes [1; 2; 3] 1 = Some (u, l)
    /\ forall n,
         (searchsorted [1; 2; 3; 4; 7]%Z (lower_length (1 # 2) 3) Left <= n
          < searchsorted [1; 2; 3; 4; 7]%Z (upper_length (1 # 2) 3) Right)%nat ->
         n ∉ [2; 1]%nat ->
         exists candidate,
           [[1]; [1; 3]; [1; 2; 3]; [1; 2; 3; 4]; [0; 1; 2; 3; 4; 5; 6]] !! n
           = Some candidate
           /\ (float_lt (lb_keogh u l candidate bits_set) PInf = false
               \/ exists n' s', (n', s') ∈ zip [2; 1]%nat [Fin (0 # 2); Fin 1]
                    /\ (n' < n)%nat
                    /\ float_lt (lb_keogh u l candidate bits_set) s' = false).
Proof.
  apply (match_skipped_for_bound [1; 2; 3] 3
           [[1]; [1; 3]; [1; 2; 3]; [1; 2; 3; 4]; [0; 1; 2; 3; 4; 5; 6]]
           [1; 2; 3; 4; 7] (1 # 2) 1 (1 # 2) 1 [2; 1]%nat [Fin (0 # 2); Fin 1]).
  exact match_example.
Defined.


